(** * datautil: collection algebra of utils/datautil/datautil.go

    A shallow embedding of the slice helpers of package [datautil] and the
    properties of their results.

    Conventions of the embedding.
    - A Go slice is read through [len] and indexing only, so it is a [list].
    - A key type [K comparable] used as a map key is a type with decidable
      equality that is countable; [map[K]struct{}] is a [gset K] and
      [map[K]V] is a [gmap K V].  Equality of keys stands for the code's
      [==].
    - Where the code iterates over a map and reads it again under the keys
      met, or counts the entries of a map, a key that is not [==] to itself
      (a float64 NaN) shows: there the key type is of class [GoKey] and the
      map is a [gomap], which keeps the entries under such keys apart.
    - [for k := range m] visits every entry of [m] exactly once in an order
      the language leaves open.  The order is the field [range] of the class
      [MapRange]: any function that lists the entries of a map up to
      permutation.  A statement that holds for every instance holds for every
      order the runtime may pick.
    - Go's [int] is the 64-bit two's complement integer: a [Z] wrapped by
      [wrap] after each arithmetic operation. *)

From Stdlib Require Import ZArith Lia.
From stdpp Require Import base list gmap strings fin_maps.

Local Open Scope Z_scope.
#[local] Set Warnings "-clear-no-such-hyp".

(** ** Keys that may differ from themselves, and the maps that hold them

    A comparable type may have values that [==] does not relate to
    themselves: a float64 NaN, or a struct, array or interface value that
    holds one.  [self_eq k] tells whether [k == k]; two keys are [==] when
    they are the same value and that value equals itself.  The functions
    below iterate over a map and read it again under the keys met, or count
    the entries of a map, which is where such keys show. *)

Class GoKey (K : Type) `{Countable K} := { self_eq : K → bool }.

Definition go_eq {K : Type} `{GoKey K} (a b : K) : bool :=
  self_eq a && bool_decide (a = b).

(** [k] is [==] to an element of [l]. *)
Definition key_in {K : Type} `{GoKey K} (k : K) (l : list K) : Prop :=
  self_eq k = true ∧ k ∈ l.

(** Every integer equals itself. *)
Global Instance Z_GoKey : GoKey Z := {| self_eq := λ _, true |}.

(** A key type with a value that differs from itself, as float64 has. *)
Inductive float_key : Type :=
| Num (z : Z)
| NaN.

Global Instance float_key_eq_dec : EqDecision float_key.
Proof. solve_decision. Defined.

Global Instance float_key_countable : Countable float_key.
Proof.
  refine (inj_countable' (λ f, match f with Num z => Some z | NaN => None end)
                         (λ o, match o with Some z => Num z | None => NaN end) _).
  by intros [].
Defined.

Global Instance float_key_GoKey : GoKey float_key :=
  {| self_eq := λ f, match f with Num _ => true | NaN => false end |}.

(** A Go map: the entries under keys that equal themselves, which a lookup
    finds, and the entries under the other keys, in the order of their
    insertion, which no lookup finds and no [delete] removes. *)
Record gomap (K V : Type) `{Countable K} : Type := GoMap {
  keyed : gmap K V;
  loose : list (K * V)
}.
Arguments GoMap {K V _ _} _ _.
Arguments keyed {K V _ _} _.
Arguments loose {K V _ _} _.

Section gomap.
Context {K V : Type} `{Countable K} `{!GoKey K}.

(* make(map[K]V) *)
Definition go_empty : gomap K V := GoMap ∅ [].

(* v, ok := m[k] *)
Definition go_lookup (m : gomap K V) (k : K) : option V :=
  if self_eq k then keyed m !! k else None.

(* m[k] = v *)
Definition go_insert (k : K) (v : V) (m : gomap K V) : gomap K V :=
  if self_eq k then GoMap (<[k := v]> (keyed m)) (loose m)
  else GoMap (keyed m) (loose m ++ [(k, v)]).

(* delete(m, k) *)
Definition go_delete (k : K) (m : gomap K V) : gomap K V :=
  if self_eq k then GoMap (delete k (keyed m)) (loose m) else m.

(* len(m) *)
Definition go_len (m : gomap K V) : nat :=
  (size (keyed m) + length (loose m))%nat.

(** The entries of a map, each once. *)
Definition go_entries (m : gomap K V) : list (K * V) :=
  map_to_list (keyed m) ++ loose m.

(** No key of the map differs from itself. *)
Definition self_keyed (m : gomap K V) : Prop :=
  (∀ k, is_Some (keyed m !! k) → self_eq k = true) ∧ loose m = [].
End gomap.

(** ** Map iteration *)

Class MapRange (K : Type) `{Countable K} := {
  range : ∀ {V : Type}, gomap K V → list (K * V);
  range_perm : ∀ {V : Type} (m : gomap K V), range m ≡ₚ go_entries m
}.

(** Two iteration orders: the one of [go_entries], and its reverse. *)
Definition fwd_range (K : Type) `{Countable K} : MapRange K :=
  {| range := λ V (m : gomap K V), go_entries m;
     range_perm := λ V m, reflexivity (go_entries m) |}.

Definition rev_range (K : Type) `{Countable K} : MapRange K :=
  {| range := λ V (m : gomap K V), reverse (go_entries m);
     range_perm := λ V m, reverse_Permutation (go_entries m) |}.

(** ** First-occurrence deduplication, as the specification words it

    [keep_first fn es] keeps the element at position [i] exactly when no
    earlier position carries the same key. *)
Definition first_of_key {E K : Type} (fn : E → K) (es : list E) (p : nat * E) : Prop :=
  fn p.2 ∉ fn <$> take p.1 es.

Global Instance first_of_key_dec {E K : Type} `{EqDecision K} (fn : E → K) es p :
  Decision (first_of_key fn es p).
Proof. unfold first_of_key. apply _. Defined.

Definition keep_first {E K : Type} `{EqDecision K} (fn : E → K) (es : list E) : list E :=
  (filter (first_of_key fn es) (imap pair es)).*2.

(** ** Deduplication *)

Section distinct.
Context {E K : Type} `{Countable K}.

(* tmp := map[K]struct{}{}; v := make([]E, 0, len(es)) and one loop turn *)
Definition DistinctAny_step (fn : E → K) (st : gset K * list E) (t : E) : gset K * list E :=
  let k := fn t in
  if decide (k ∈ st.1) then st else ({[k]} ∪ st.1, st.2 ++ [t]).

Definition DistinctAny (es : list E) (fn : E → K) : list E :=
  (foldl (DistinctAny_step fn) (∅, []) es).2.

End distinct.

Definition Distinct {T : Type} `{Countable T} (ts : list T) : list T :=
  if decide (length ts < 2)%nat then ts
  else if decide (length ts = 2%nat) then
    match ts with
    | t0 :: t1 :: _ => if decide (t0 = t1) then take 1 ts else ts
    | _ => ts
    end
  else DistinctAny ts (λ t, t).

(** ** Difference and intersection *)

Section sub_intersect.
Context {T V E : Type} `{Countable E}.

(* k := make(map[E]struct{}); for ... { k[fnb(b[i])] = struct{}{} } *)
Definition key_set (b : list V) (fnb : V → E) : gset E :=
  foldl (λ (k : gset E) item, {[fnb item]} ∪ k) ∅ b.

Definition SliceSubFuncs_step (k : gset E) (fna : T → E)
    (st : gset E * list T) (ai : T) : gset E * list T :=
  let e := fna ai in
  if decide (e ∈ st.1) then st
  else if decide (e ∈ k) then st
  else ({[e]} ∪ st.1, st.2 ++ [ai]).

Definition SliceSubFuncs (a : list T) (b : list V) (fna : T → E) (fnb : V → E) : list T :=
  if decide (length b = 0%nat) then a
  else
    let k := key_set b fnb in
    (foldl (SliceSubFuncs_step k fna) (∅, []) a).2.

(* The deduplication map [t] is a map[E]struct{}: reading a missing key
   yields the zero value struct{}{}. *)
Definition SliceIntersectFuncs_step (k : gset E) (fna : T → E)
    (st : gmap E unit * list T) (item : T) : gmap E unit * list T :=
  let e := fna item in
  if bool_decide (e ∈ k) && bool_decide (default () (st.1 !! e) = ())
  then (<[e := ()]> st.1, st.2 ++ [item])
  else st.

(* [return nil] is the slice of length 0. *)
Definition SliceIntersectFuncs (a : list T) (b : list V) (fna : T → E) (fnb : V → E) : list T :=
  if decide (length b = 0%nat) then []
  else
    let k := key_set b fnb in
    (foldl (SliceIntersectFuncs_step k fna) (∅, []) a).2.
End sub_intersect.

(** ** Deduplication over keys that may differ from themselves

    [DistinctAny] and [Distinct] once more, as [Single] runs them: the map
    of the keys seen is a Go map, and the test of the two-element path is
    [==]. *)

Module Keyed.
Section distinct.
Context {E K : Type} `{Countable K} `{!GoKey K}.

Definition DistinctAny_step (fn : E → K) (st : gomap K unit * list E) (t : E)
    : gomap K unit * list E :=
  let k := fn t in
  if decide (is_Some (go_lookup st.1 k)) then st
  else (go_insert k () st.1, st.2 ++ [t]).

Definition DistinctAny (es : list E) (fn : E → K) : list E :=
  (foldl (DistinctAny_step fn) (go_empty, []) es).2.
End distinct.

Definition Distinct {T : Type} `{GoKey T} (ts : list T) : list T :=
  if decide (length ts < 2)%nat then ts
  else if decide (length ts = 2%nat) then
    match ts with
    | t0 :: t1 :: _ => if go_eq t0 t1 then take 1 ts else ts
    | _ => ts
    end
  else DistinctAny ts (λ t, t).
End Keyed.

(** ** Symmetric difference *)

Section single.
Context {E : Type} `{Countable E} `{!GoKey E} `{!MapRange E}.

(* kn[e]++ on a map[E]uint8: a missing key reads as 0 *)
Definition incr (kn : gomap E Z) (e : E) : gomap E Z :=
  go_insert e ((default 0 (go_lookup kn e) + 1) mod 256) kn.

Definition Single (a b : list E) : list E :=
  let kn := foldl incr go_empty (Keyed.Distinct a) in
  let kn := foldl incr kn (Keyed.Distinct b) in
  foldl (λ (v : list E) (p : E * Z), if decide (p.2 = 1) then v ++ [p.1] else v)
        [] (range kn).

Definition Complete (a b : list E) : bool :=
  bool_decide (length (Single a b) = 0%nat).
End single.

(** ** Multi-way intersection *)

Section both_exist.
Context {E K : Type} `{Countable K} `{!GoKey K} `{!MapRange K}.
(* the zero value of E, which reading a missing key yields *)
Variable zero : E.

(* kv := make(map[K]E); for j ... { kv[fn(e[j])] = e[j] } *)
Definition key_map (e : list E) (fn : E → K) : gomap K E :=
  foldl (λ (kv : gomap K E) t, go_insert (fn t) t kv) go_empty e.

(* The first loop, at turn [i] with the slices [es] still to visit.
   [None] is the early [return []E{}]. *)
Fixpoint BothExistAny_maps (fn : E → K) (es : list (list E)) (i : nat)
    (ei : list (gomap K E)) (idx : nat) : option (list (gomap K E) * nat) :=
  match es with
  | [] => Some (ei, idx)
  | e :: rest =>
      if decide (length e = 0%nat) then None
      else
        let kv := key_map e fn in
        let ei := <[i := kv]> ei in
        let idx := if decide (go_len kv < go_len (default go_empty (ei !! idx)))%nat
                   then i else idx in
        BothExistAny_maps fn rest (S i) ei idx
  end.

(* all := true; for i ... { if i == idx { continue }; if _, ok := ei[i][k]; !ok { all = false; break } } *)
Definition in_all_others (ei : list (gomap K E)) (idx : nat) (k : K) : bool :=
  forallb (λ p : nat * gomap K E,
             bool_decide (p.1 = idx) || bool_decide (is_Some (go_lookup p.2 k)))
          (imap pair ei).

Definition BothExistAny (es : list (list E)) (fn : E → K) : list E :=
  if decide (length es = 0%nat) then []
  else
    match BothExistAny_maps fn es 0 (replicate (length es) go_empty) 0 with
    | None => []
    | Some (ei, idx) =>
        foldl (λ (v : list E) (k : K),
                 if in_all_others ei idx k
                 then v ++ [default zero (go_lookup (default go_empty (ei !! idx)) k)]
                 else v)
              [] (range (default go_empty (ei !! idx))).*1
    end.
End both_exist.

(** ** Re-sequencing by a reference key list *)

Section order.
Context {E T : Type} `{Countable E} `{!GoKey E} `{!MapRange E}.

(* kv[k] = append(kv[k], t): a missing key reads as the nil slice *)
Definition group_by (ts : list T) (fn : T → E) : gomap E (list T) :=
  foldl (λ (kv : gomap E (list T)) t,
           go_insert (fn t) (default [] (go_lookup kv (fn t)) ++ [t]) kv)
        go_empty ts.

(* vs := kv[e]; delete(kv, e); rs = append(rs, vs...) *)
Definition Order_step (st : gomap E (list T) * list T) (e : E) : gomap E (list T) * list T :=
  (go_delete e st.1, st.2 ++ default [] (go_lookup st.1 e)).

Definition Order (es : list E) (ts : list T) (fn : T → E) : list T :=
  if decide (length es = 0%nat ∨ length ts = 0%nat) then ts
  else
    let kv := group_by ts fn in
    let st := foldl Order_step (kv, []) es in
    foldl (λ (rs : list T) (k : E), rs ++ default [] (go_lookup st.1 k)) st.2 (range st.1).*1.
(** The elements of [ts] with key [k], in input order. *)
Definition key_group (fn : T → E) (ts : list T) (k : E) : list T :=
  filter (λ t, fn t = k) ts.

(** The keys of [ts] that the reference list does not mention, each once,
    in order of first appearance in [ts]. *)
Definition unseen_keys (es : list E) (ts : list T) (fn : T → E) : list E :=
  keep_first (λ k : E, k) (filter (λ k, k ∉ es) (fn <$> ts)).

(** Re-sequencing as the specification words it: the groups of the
    reference keys in order of first appearance in [es], then the groups of
    the unseen keys in their original relative order. *)
Definition Order_spec (es : list E) (ts : list T) (fn : T → E) : list T :=
  if decide (es = [] ∨ ts = []) then ts
  else
    flat_map (key_group fn ts) (keep_first (λ k : E, k) es)
    ++ flat_map (key_group fn ts) (unseen_keys es ts fn).
End order.

(** ** Machine integers *)

Definition int_bits : Z := 64.
Definition int_min : Z := - 2 ^ (int_bits - 1).
Definition int_max : Z := 2 ^ (int_bits - 1) - 1.

(** Two's complement wrap-around of a mathematical result into [int]. *)
Definition wrap (z : Z) : Z :=
  (z + 2 ^ (int_bits - 1)) mod 2 ^ int_bits - 2 ^ (int_bits - 1).

Definition int_add (a b : Z) : Z := wrap (a + b).
Definition int_sub (a b : Z) : Z := wrap (a - b).
Definition int_mul (a b : Z) : Z := wrap (a * b).

Definition len {E : Type} (es : list E) : Z := Z.of_nat (length es).

(** ** Pagination *)

(** A slice value that tells the nil slice from an allocated one. *)
Inductive slice (E : Type) : Type :=
| nil_slice
| slice_of (l : list E).
Arguments nil_slice {E}.
Arguments slice_of {E} l.

(** The slice expression [es[lo:hi]]: a run-time panic ([None]) unless
    [0 <= lo <= hi <= cap(es)].  The only use below has [hi <= len(es)]
    already, so the capacity is not modelled apart from the length. *)
Definition slice_expr {E : Type} (es : list E) (lo hi : Z) : option (list E) :=
  if decide (0 ≤ lo ∧ lo ≤ hi ∧ hi ≤ len es)
  then Some (take (Z.to_nat (hi - lo)) (drop (Z.to_nat lo) es))
  else None.

(** [None] is a run-time panic. *)
Definition Paginate {E : Type} (es : list E) (pageNumber showNumber : Z) : option (slice E) :=
  if decide (pageNumber ≤ 0) then Some (slice_of [])
  else if decide (showNumber ≤ 0) then Some (slice_of [])
  else
    let start := int_mul (int_sub pageNumber 1) showNumber in
    let end_ := int_add start showNumber in
    if decide (start >= len es) then Some (slice_of [])
    else
      let end_ := if decide (end_ > len es) then len es else end_ in
      slice_of <$> slice_expr es start end_.

(** ** Indexed access *)

(** The arguments handed to the error constructor. *)
Inductive any : Type :=
| AnyString (s : string)
| AnyInt (z : Z)
| AnyInts (l : list Z).

(** Modelled from the spec: [errs.New(msg, kv...)] of package [errs], which
    is not part of the sources at hand.  It builds an error value that
    carries the message and the key/value arguments; [Wrap] attaches the call
    stack and leaves both untouched. *)
Record CodeError : Type := errs_New { err_msg : string; err_kv : list any }.

Definition Wrap (e : CodeError) : CodeError := e.

(** Go's [(int, error)]: [None] is the nil error. *)
Definition GetElemByIndex (array : list Z) (index : Z) : Z * option CodeError :=
  if decide (index < 0 ∨ index >= len array)
  then (0, Some (Wrap (errs_New "index out of range"
                         [AnyString "index"; AnyInt index; AnyString "array"; AnyInts array])))
  else (default 0 (array !! Z.to_nat index), None).

(** ** The remaining helpers of the package

    Loop counters run below [len] of a slice, which an [int] holds, so they
    are plain numbers; arithmetic on values the caller supplies is wrapped. *)

Section sub_variants.
Context {T E : Type} `{Countable E}.

Definition SliceSubFunc (a b : list T) (fn : T → E) : list T :=
  SliceSubFuncs a b fn fn.






End sub_variants.

Definition SliceSub {E : Type} `{Countable E} (a b : list E) : list E :=
  SliceSubFunc a b (λ i, i).



(** ** Slices to maps *)

Section to_map.
Context {E K V : Type} `{Countable K}.



End to_map.




(** ** Element-wise conversion *)

Section convert.
Context {E T : Type}.

Definition Filter (es : list E) (fn : E → T * bool) : list T :=
  foldl (λ (rs : list T) e, let '(t, ok) := fn e in if ok then rs ++ [t] else rs) [] es.

(* v := make([]T, len(es)); v[i] = fn(es[i]).  [zero] is the zero value of T
   that [make] fills the slice with. *)
Definition Slice (zero : T) (es : list E) (fn : E → T) : list T :=
  foldl (λ (v : list T) (p : nat * E), <[p.1 := fn p.2]> v)
        (replicate (length es) zero) (imap pair es).
End convert.

Definition SliceSubAny {E T : Type} `{Countable E} (zero : E)
    (a : list E) (b : list T) (fn : T → E) : list E :=
  SliceSub a (Slice zero b fn).

(** ** Deleting by index and by value *)

Section delete.
Context {E : Type}.

(* if i < 0 { i = len(es) + i } *)
Definition from_end (es : list E) (i : Z) : Z :=
  if decide (i < 0) then int_add (len es) i else i.

(** [None] is a run-time panic of a slice expression. *)
Definition Delete (es : list E) (index : list Z) : option (list E) :=
  match index with
  | [] => Some es
  | [i] =>
      let i := from_end es i in
      if decide (len es ≤ i) then Some es
      else
        match slice_expr es 0 i, slice_expr es (int_add i 1) (len es) with
        | Some front, Some back => Some (front ++ back)
        | _, _ => None
        end
  | _ =>
      let tmp := foldl (λ (tmp : gset Z) i, {[from_end es i]} ∪ tmp) ∅ index in
      Some (foldl (λ (v : list E) (p : nat * E),
                     if decide (Z.of_nat p.1 ∈ tmp) then v else v ++ [p.2])
                  [] (imap pair es))
  end.
End delete.

Section delete_elems.
Context {E : Type} `{Countable E}.



End delete_elems.

(** ** Minimum, maximum and equality *)

(** [Min] and [Max] at the element type [int]; [None] is the panic of [e[0]]
    on an empty argument list. *)
Definition Min (e : list Z) : option Z :=
  match e with
  | [] => None
  | v :: rest => Some (foldl (λ v t, if decide (v > t) then t else v) v rest)
  end.

Definition Max (e : list Z) : option Z :=
  match e with
  | [] => None
  | v :: rest => Some (foldl (λ v t, if decide (v < t) then t else v) v rest)
  end.



(** ** Keys and values of a map *)

Section keys_values.
Context {K V : Type} `{Countable K} `{!GoKey K} `{!MapRange K}.

Definition Keys (kv : gomap K V) : list K :=
  foldl (λ (ks : list K) (k : K), ks ++ [k]) [] (range kv).*1.

(* vs = append(vs, kv[k]); [zero] is what a missing key reads as *)
Definition Values (zero : V) (kv : gomap K V) : list V :=
  foldl (λ (vs : list V) (k : K), vs ++ [default zero (go_lookup kv k)]) [] (range kv).*1.
End keys_values.

(** ** Option switches

    A [map[string]bool] argument is a reference to a map, or nil ([None]). *)

Definition GetSwitchFromOptions (Options : option (gmap string bool)) (key : string) : bool :=
  match Options with
  | None => true
  | Some m =>
      (* flag, ok := Options[key]; !ok || flag *)
      match m !! key with
      | None => true
      | Some flag => flag
      end
  end.

(** The map the caller holds after the call.  On a nil argument the function
    makes a fresh map and assigns it to its own parameter, so the caller's
    map stays nil. *)
Definition SetSwitchFromOptions (options : option (gmap string bool)) (key : string)
    (value : bool) : option (gmap string bool) :=
  match options with
  | None => None
  | Some m => Some (<[key := value]> m)
  end.

(** [BothExist]: the multi-way intersection at the identity key. *)
Definition BothExist {E : Type} `{Countable E} `{!GoKey E} `{!MapRange E} (zero : E)
    (es : list (list E)) : list E :=
  BothExistAny zero es (λ e, e).

(** * Properties *)

(** ** Facts about [keep_first] *)

Lemma filter_ext_in {A : Type} (P Q : A → Prop)
    `{!∀ x, Decision (P x)} `{!∀ x, Decision (Q x)} (l : list A) :
  (∀ x, x ∈ l → (P x ↔ Q x)) → filter P l = filter Q l.
Proof.
  induction l as [|a l IH]; intros HPQ; [done|].
  rewrite !filter_cons.
  rewrite IH by (intros x Hx; apply HPQ; by right).
  destruct (decide (P a)) as [HP|HP], (decide (Q a)) as [HQ|HQ]; try done.
  - exfalso. apply HQ, HPQ; [by left|done].
  - exfalso. apply HP, HPQ; [by left|done].
Qed.

Section keep_first_facts.
Context {E K : Type} `{EqDecision K} (fn : E → K).

Lemma keep_first_nil : keep_first fn [] = [].
Proof. reflexivity. Qed.

Lemma keep_first_snoc (es : list E) (x : E) :
  keep_first fn (es ++ [x])
  = keep_first fn es ++ (if decide (fn x ∈ fn <$> es) then [] else [x]).
Proof.
  unfold keep_first.
  rewrite imap_app, filter_app, fmap_app. f_equal.
  - f_equal. apply filter_ext_in. intros [i y] Hin.
    apply elem_of_lookup_imap_1 in Hin as (j & z & Heq & Hj).
    inversion Heq; subst. unfold first_of_key; simpl.
    apply lookup_lt_Some in Hj.
    rewrite take_app_le by lia. done.
  - simpl. rewrite filter_cons, filter_nil.
    assert (first_of_key fn (es ++ [x]) (length es + 0, x)%nat ↔ fn x ∉ fn <$> es) as Hiff.
    { unfold first_of_key; simpl. by rewrite Nat.add_0_r, take_app_length. }
    destruct (decide (first_of_key fn (es ++ [x]) (length es + 0, x)%nat)) as [Hf|Hf],
             (decide (fn x ∈ fn <$> es)) as [Hin|Hin]; try done.
    + by apply Hiff in Hf.
    + exfalso. by apply Hf, Hiff.
Qed.

Lemma keep_first_keys (es : list E) (k : K) :
  k ∈ fn <$> keep_first fn es ↔ k ∈ fn <$> es.
Proof.
  induction es as [|x es IH] using rev_ind; [done|].
  rewrite keep_first_snoc, !fmap_app, !elem_of_app, IH.
  destruct (decide (fn x ∈ fn <$> es)) as [Hin|Hin]; simpl.
  - rewrite elem_of_nil, list_elem_of_singleton. split; [tauto|].
    intros [?| ->]; left; done.
  - rewrite list_elem_of_singleton. tauto.
Qed.

Lemma keep_first_NoDup (es : list E) : NoDup (fn <$> keep_first fn es).
Proof.
  induction es as [|x es IH] using rev_ind; [constructor|].
  rewrite keep_first_snoc, fmap_app.
  destruct (decide (fn x ∈ fn <$> es)) as [Hin|Hin]; simpl.
  - by rewrite app_nil_r.
  - apply NoDup_app. split; [done|]. split; [|apply NoDup_singleton].
    intros k Hk ->%list_elem_of_singleton.
    by apply Hin, keep_first_keys.
Qed.

End keep_first_facts.

(** ** DistinctAny and Distinct *)

Section distinct_facts.
Context {E K : Type} `{Countable K}.

Lemma DistinctAny_loop (fn : E → K) (es : list E) :
  foldl (DistinctAny_step fn) (∅, []) es
  = (list_to_set (fn <$> es), keep_first fn es).
Proof.
  induction es as [|x es IH] using rev_ind; [done|].
  rewrite foldl_snoc, IH, keep_first_snoc. unfold DistinctAny_step; simpl.
  rewrite fmap_app, list_to_set_app_L. simpl.
  destruct (decide (fn x ∈ fn <$> es)) as [Hin|Hin].
  - rewrite decide_True by (by apply elem_of_list_to_set).
    rewrite app_nil_r. f_equal.
    assert (fn x ∈ (list_to_set (fn <$> es) : gset K))
      by (by apply elem_of_list_to_set).
    set_solver.
  - rewrite decide_False by (by rewrite elem_of_list_to_set).
    f_equal. set_solver.
Qed.

Lemma DistinctAny_keep_first (es : list E) (fn : E → K) :
  DistinctAny es fn = keep_first fn es.
Proof. unfold DistinctAny. by rewrite DistinctAny_loop. Qed.
End distinct_facts.

Lemma Distinct_DistinctAny {T : Type} `{Countable T} (ts : list T) :
  Distinct ts = DistinctAny ts (λ t, t).
Proof.
  unfold Distinct.
  destruct ts as [|t0 [|t1 [|t2 ts]]]; simpl; try done.
  rewrite DistinctAny_keep_first.
  change [t0; t1] with ([t0] ++ [t1]). rewrite keep_first_snoc. simpl.
  destruct (decide (t0 = t1)) as [->|Hne].
  - rewrite decide_True by (by apply list_elem_of_singleton). done.
  - rewrite decide_False; [done|]. rewrite list_elem_of_singleton. congruence.
Qed.

Example DistinctAny_5_3_5_7 : DistinctAny [5; 3; 5; 7] (λ x : Z, x) = [5; 3; 7].
Proof. vm_compute. reflexivity. Qed.


(** ** Difference and intersection *)

Section sub_intersect_facts.
Context {T V E : Type} `{Countable E}.

Lemma key_set_list_to_set (b : list V) (fnb : V → E) :
  key_set b fnb = list_to_set (fnb <$> b).
Proof.
  unfold key_set.
  induction b as [|x b IH] using rev_ind; [done|].
  rewrite foldl_snoc, IH, fmap_app, list_to_set_app_L. set_solver.
Qed.

Lemma elem_of_key_set (b : list V) (fnb : V → E) (e : E) :
  e ∈ key_set b fnb ↔ e ∈ fnb <$> b.
Proof. rewrite key_set_list_to_set. apply elem_of_list_to_set. Qed.



(* The test [t[e] == struct{}{}] holds whatever [t] contains. *)
Lemma SliceIntersectFuncs_loop (k : gset E) (fna : T → E) (a : list T) :
  (foldl (SliceIntersectFuncs_step k fna) (∅, []) a).2
  = filter (λ x, fna x ∈ k) a.
Proof.
  induction a as [|x a IH] using rev_ind; [done|].
  rewrite foldl_snoc, filter_app, filter_cons, filter_nil, <- IH.
  unfold SliceIntersectFuncs_step at 1.
  destruct (foldl _ _ a) as [t rs]; simpl.
  rewrite (bool_decide_eq_true_2 (default () (t !! fna x) = ()))
    by (by destruct (default _ _)).
  rewrite andb_true_r.
  destruct (decide (fna x ∈ k)) as [Hk|Hk].
  - by rewrite bool_decide_eq_true_2.
  - rewrite bool_decide_eq_false_2 by done. by rewrite app_nil_r.
Qed.

Lemma SliceIntersectFuncs_filter (a : list T) (b : list V) (fna : T → E) (fnb : V → E) :
  b ≠ [] →
  SliceIntersectFuncs a b fna fnb = filter (λ x, fna x ∈ fnb <$> b) a.
Proof.
  intros Hb. unfold SliceIntersectFuncs.
  rewrite decide_False by (by destruct b).
  rewrite SliceIntersectFuncs_loop.
  apply filter_ext_in. intros x _. by rewrite elem_of_key_set.
Qed.
End sub_intersect_facts.



(** C1.  On [a = [1; 1]] and [b = [1]] with identity keys the intersection
    keeps both copies of [1], where deduplication by key would keep the first
    only: the guard [t[e] == struct{}{}] of the loop compares two values of
    the empty struct type and so never rejects a key already emitted. *)
Theorem SliceIntersectFuncs_keeps_duplicates :
  SliceIntersectFuncs [1; 1] [1] (λ x : Z, x) (λ x : Z, x) = [1; 1]
  ∧ keep_first (λ x : Z, x) (filter (λ x, x ∈ (λ x : Z, x) <$> [1]) [1; 1]) = [1].
Proof. split; vm_compute; reflexivity. Qed.

(** ** Pagination *)

Lemma wrap_in_range (z : Z) : int_min ≤ z ≤ int_max → wrap z = z.
Proof.
  unfold wrap, int_min, int_max, int_bits. simpl Z.sub. intros Hz.
  rewrite Z.mod_small; lia.
Qed.

Lemma Paginate_non_positive {E : Type} (es : list E) (pageNumber showNumber : Z) :
  pageNumber ≤ 0 ∨ showNumber ≤ 0 →
  Paginate es pageNumber showNumber = Some (slice_of []).
Proof.
  intros Hle. unfold Paginate.
  destruct (decide (pageNumber ≤ 0)); [done|].
  destruct (decide (showNumber ≤ 0)); [done|lia].
Qed.

(** Where the arithmetic stays inside [int], the page is the window of
    [showNumber] elements from index [(pageNumber - 1) * showNumber], cut at
    the end of the slice, and never the nil slice. *)
Lemma Paginate_in_range {E : Type} (es : list E) (pageNumber showNumber : Z) :
  0 < pageNumber → 0 < showNumber →
  (pageNumber - 1) * showNumber + showNumber ≤ int_max →
  Paginate es pageNumber showNumber
  = Some (slice_of (take (Z.to_nat showNumber)
                         (drop (Z.to_nat ((pageNumber - 1) * showNumber)) es))).
Proof.
  intros Hp Hs Hmax. unfold Paginate.
  rewrite !decide_False by lia.
  assert (int_min = -9223372036854775808) as Hmin by done.
  assert (int_max = 9223372036854775807) as Hmx by done.
  assert (0 ≤ (pageNumber - 1) * showNumber) as Hge by nia.
  unfold int_sub, int_mul, int_add.
  rewrite (wrap_in_range (pageNumber - 1)) by nia.
  rewrite (wrap_in_range ((pageNumber - 1) * showNumber)) by lia.
  rewrite (wrap_in_range (_ + _)) by lia.
  set (start := (pageNumber - 1) * showNumber) in *.
  destruct (decide (start >= len es)) as [Hlen|Hlen]; unfold len in Hlen.
  - rewrite drop_ge by lia. by rewrite take_nil.
  - unfold slice_expr.
    destruct (decide (start + showNumber > len es)) as [Hend|Hend];
      unfold len in *.
    + rewrite decide_True by lia. simpl. do 2 f_equal.
      rewrite !take_ge; [done| |]; rewrite length_drop; lia.
    + rewrite decide_True by lia. simpl. do 3 f_equal. lia.
Qed.

(** Whatever the arguments, a call that returns does not return the nil
    slice. *)
Lemma Paginate_never_nil {E : Type} (es : list E) (pageNumber showNumber : Z) :
  Paginate es pageNumber showNumber ≠ Some nil_slice.
Proof.
  unfold Paginate. repeat (destruct (decide _); [done|]).
  by destruct (slice_expr _ _ _).
Qed.

Example Paginate_page_2 :
  Paginate [1; 2; 3; 4; 5; 6; 7; 8; 9; 10] 2 3 = Some (slice_of [4; 5; 6]).
Proof. vm_compute. reflexivity. Qed.

Example Paginate_page_4 :
  Paginate [1; 2; 3; 4; 5; 6; 7; 8; 9; 10] 4 3 = Some (slice_of [10]).
Proof. vm_compute. reflexivity. Qed.

Example Paginate_page_5 :
  Paginate [1; 2; 3; 4; 5; 6; 7; 8; 9; 10] 5 3 = Some (slice_of []).
Proof. vm_compute. reflexivity. Qed.

(** C4.  On a one-element slice, page [2^32 + 1] of size [2^32] starts at
    index [2^64], far past the end, so the page is empty; the product wraps
    to [0] in [int] and the code returns the first page instead. *)
Theorem Paginate_overflow_wrong_page :
  Paginate [7] 4294967297 4294967296 = Some (slice_of [7])
  ∧ len [7] ≤ (4294967297 - 1) * 4294967296.
Proof. split; [vm_compute; reflexivity|]. unfold len. simpl. lia. Qed.

(** C5.  With page number [2^62 + 1] and page size [2] the product wraps to
    [-2^63]: both bounds checks pass and the slice expression panics on its
    negative lower bound. *)
Theorem Paginate_overflow_panics :
  Paginate ([] : list Z) 4611686018427387905 2 = None
  ∧ int_mul (int_sub 4611686018427387905 1) 2 = int_min.
Proof. split; vm_compute; reflexivity. Qed.

(** ** Indexed access *)

(** C8.  [GetElemByIndex] returns an error exactly when the index is outside
    the array; the error is the out-of-range error built from the index and
    the array.  Inside the array it returns the element at the index and the
    nil error. *)
Theorem GetElemByIndex_checked (array : list Z) (index : Z) :
  ((GetElemByIndex array index).2 ≠ None ↔ index < 0 ∨ len array ≤ index)
  ∧ (index < 0 ∨ len array ≤ index →
     GetElemByIndex array index
     = (0, Some (errs_New "index out of range"
                   [AnyString "index"; AnyInt index; AnyString "array"; AnyInts array])))
  ∧ (0 ≤ index < len array →
     ∃ x, array !! Z.to_nat index = Some x
          ∧ GetElemByIndex array index = (x, None)).
Proof.
  unfold GetElemByIndex.
  destruct (decide (index < 0 ∨ index >= len array)) as [Hout|Hin]; simpl.
  - split_and!.
    + split; [lia|done].
    + done.
    + lia.
  - split_and!.
    + split; [done|lia].
    + lia.
    + intros Hr. unfold len in *.
      destruct (lookup_lt_is_Some_2 array (Z.to_nat index)) as [x Hx]; [lia|].
      exists x. by rewrite Hx.
Qed.

Lemma GetElemByIndex_checked_witness :
  GetElemByIndex [1; 2; 3] 5
  = (0, Some (errs_New "index out of range"
                [AnyString "index"; AnyInt 5; AnyString "array"; AnyInts [1; 2; 3]]))
  ∧ GetElemByIndex [1; 2; 3] 1 = (2, None).
Proof.
  split.
  - apply (proj1 (proj2 (GetElemByIndex_checked [1; 2; 3] 5))).
    right. vm_compute. discriminate.
  - destruct (proj2 (proj2 (GetElemByIndex_checked [1; 2; 3] 1))) as (x & Hx & Heq).
    + split; vm_compute; [discriminate|reflexivity].
    + simpl in Hx. injection Hx as <-. exact Heq.
Defined.

(** ** Symmetric difference *)

Lemma Distinct_elem_of {T : Type} `{Countable T} (ts : list T) (x : T) :
  x ∈ Distinct ts ↔ x ∈ ts.
Proof.
  rewrite Distinct_DistinctAny, DistinctAny_keep_first.
  pose proof (keep_first_keys (λ t : T, t) ts x) as Hk.
  by rewrite !list_fmap_id in Hk.
Qed.

Lemma Distinct_NoDup {T : Type} `{Countable T} (ts : list T) : NoDup (Distinct ts).
Proof.
  rewrite Distinct_DistinctAny, DistinctAny_keep_first.
  pose proof (keep_first_NoDup (λ t : T, t) ts) as Hnd.
  by rewrite list_fmap_id in Hnd.
Qed.


Lemma nil_elem_of_dec {E : Type} (es : list (list E)) : [] ∈ es ∨ [] ∉ es.
Proof.
  induction es as [|e es [IH|IH]].
  - right. apply not_elem_of_nil.
  - left. by right.
  - destruct e as [|x e]; [left; by left|].
    right. intros [Heq|Hin]%elem_of_cons; done.
Qed.

(** * Properties of the remaining helpers *)

(** ** Deduplication, duplicates and search *)

Section dedup_more.
Context {E K : Type} `{Countable K}.
Implicit Types (es : list E) (fn : E → K).

Lemma keep_first_NoDup_id fn es : NoDup (fn <$> es) → keep_first fn es = es.
Proof.
  induction es as [|x es IH] using rev_ind; intros Hnd; [done|].
  rewrite fmap_app in Hnd. apply NoDup_app in Hnd as (Hnd & Hx & _).
  rewrite keep_first_snoc, IH by done.
  rewrite decide_False; [done|].
  intros Hin. apply (Hx _ Hin). by left.
Qed.



End dedup_more.

(** X1.  Deduplicating a second time changes nothing. *)
Theorem DistinctAny_idempotent {E K : Type} `{Countable K} (es : list E) (fn : E → K) :
  DistinctAny (DistinctAny es fn) fn = DistinctAny es fn.
Proof.
  rewrite !DistinctAny_keep_first.
  apply keep_first_NoDup_id, keep_first_NoDup.
Qed.






(** ** Slices to maps, conversions and the difference variants *)

Section to_map_facts.
Context {E K V : Type} `{Countable K}.

End to_map_facts.



Section convert_facts.
Context {E T : Type}.

Lemma Filter_filter (es : list E) (fn : E → T * bool) :
  Filter es fn = (λ e, (fn e).1) <$> filter (λ e, (fn e).2 = true) es.
Proof.
  unfold Filter. induction es as [|x es IH] using rev_ind; [done|].
  rewrite foldl_snoc, IH, filter_app, fmap_app, filter_cons, filter_nil.
  destruct (fn x) as [t ok] eqn:Hfn; simpl. destruct ok.
  - rewrite decide_True by done. simpl. by rewrite Hfn.
  - rewrite decide_False by done. by rewrite app_nil_r.
Qed.

Lemma Slice_loop (fn : E → T) (es : list E) (v : list T) :
  (length es ≤ length v)%nat →
  foldl (λ (v : list T) (p : nat * E), <[p.1 := fn p.2]> v) v (imap pair es)
  = (fn <$> es) ++ drop (length es) v.
Proof.
  induction es as [|x es IH] using rev_ind; intros Hlen.
  - simpl. by rewrite drop_0.
  - rewrite length_app in Hlen. simpl in Hlen.
    rewrite imap_app, foldl_app, IH by lia. simpl.
    rewrite Nat.add_0_r, length_app, fmap_app, <- app_assoc. simpl.
    rewrite insert_app_r_alt by (rewrite length_fmap; lia).
    rewrite length_fmap, Nat.sub_diag. f_equal.
    destruct (lookup_lt_is_Some_2 v (length es) ltac:(lia)) as [y Hy].
    rewrite (drop_S _ y) by done. simpl. f_equal. f_equal. lia.
Qed.

Lemma Slice_fmap (zero : T) (es : list E) (fn : E → T) :
  Slice zero es fn = fn <$> es.
Proof.
  unfold Slice. rewrite Slice_loop by (by rewrite length_replicate).
  rewrite drop_ge by (by rewrite length_replicate). apply app_nil_r.
Qed.
End convert_facts.

(** X8.  [Slice] converts element by element: the result has the length of
    the input and holds [fn (es[i])] at every index [i]; no zero value of the
    freshly made slice is left in it.  [Filter] keeps the converted elements
    that the function accepts, in order, so it never returns more elements
    than it is given. *)
Theorem Slice_Filter_elementwise {E T : Type} (zero : T) (es : list E)
    (fn : E → T) (fnok : E → T * bool) :
  Slice zero es fn = fn <$> es
  ∧ length (Slice zero es fn) = length es
  ∧ Filter es fnok = (λ e, (fnok e).1) <$> filter (λ e, (fnok e).2 = true) es
  ∧ (length (Filter es fnok) ≤ length es)%nat.
Proof.
  rewrite Slice_fmap, Filter_filter, !length_fmap. split_and!; try done.
  apply length_filter.
Qed.

Section sub_more.
Context {T E : Type} `{Countable E}.

End sub_more.



(** ** Deleting by index *)

Section delete_facts.
Context {E : Type}.
Implicit Types (es : list E) (i : Z).

Lemma from_end_in_range es i :
  int_min ≤ i ≤ int_max → len es ≤ int_max →
  from_end es i = if decide (i < 0) then len es + i else i.
Proof.
  intros Hi Hlen. unfold from_end, int_add.
  destruct (decide (i < 0)); [|done].
  apply wrap_in_range. unfold len in *. lia.
Qed.

Lemma Delete_loop es (tmp : gset Z) :
  foldl (λ (v : list E) (p : nat * E),
           if decide (Z.of_nat p.1 ∈ tmp) then v else v ++ [p.2])
        [] (imap pair es)
  = (filter (λ p : nat * E, Z.of_nat p.1 ∉ tmp) (imap pair es)).*2.
Proof.
  generalize (imap pair es). intros l.
  induction l as [|p l IH] using rev_ind; [done|].
  rewrite foldl_snoc, IH, filter_app, fmap_app, filter_cons, filter_nil.
  destruct (decide (Z.of_nat p.1 ∈ tmp)).
  - rewrite decide_False by tauto. by rewrite app_nil_r.
  - by rewrite decide_True.
Qed.

Lemma Delete_index_set es (index : list Z) (j : Z) :
  j ∈ foldl (λ (tmp : gset Z) i, {[from_end es i]} ∪ tmp) ∅ index
  ↔ j ∈ from_end es <$> index.
Proof.
  induction index as [|i index IH] using rev_ind.
  - simpl. rewrite elem_of_nil. set_solver.
  - rewrite foldl_snoc, fmap_app, elem_of_app, elem_of_union, IH.
    simpl. rewrite list_elem_of_singleton, elem_of_singleton. tauto.
Qed.
End delete_facts.

(** X11.  [Delete] with one index [i]: an index from [0] below the length
    removes the element there; an index at or past the length leaves the
    slice as it is; a negative index counts from the end, [-1] being the last
    element; and an index below minus the length makes the slice expression
    panic. *)
Theorem Delete_one_index {E : Type} (es : list E) (i : Z) :
  int_min ≤ i ≤ int_max → len es ≤ int_max →
  Delete es [i]
  = if decide (i < - len es) then None
    else if decide (len es ≤ i) then Some es
    else Some (delete (Z.to_nat (if decide (i < 0) then len es + i else i)) es).
Proof.
  intros Hi Hlen. unfold Delete. rewrite from_end_in_range by done.
  assert (int_max = 9223372036854775807) as Hmx by done.
  assert (int_min = -9223372036854775808) as Hmn by done.
  assert (0 ≤ len es) as Hpos by (unfold len; lia).
  set (i' := if decide (i < 0) then len es + i else i).
  destruct (decide (i < - len es)) as [Hlow|Hlow].
  - assert (i' < 0) as Hneg by (unfold i'; destruct (decide (i < 0)); lia).
    rewrite decide_False by lia.
    unfold slice_expr at 1. rewrite decide_False by lia. done.
  - assert (0 ≤ i') as Hge by (unfold i'; destruct (decide (i < 0)); lia).
    destruct (decide (len es ≤ i)) as [Hhigh|Hhigh].
    + rewrite decide_True; [done|]. unfold i'. destruct (decide (i < 0)); lia.
    + assert (i' < len es) as Hlt by (unfold i'; destruct (decide (i < 0)); lia).
      rewrite decide_False by lia.
      unfold int_add. rewrite (wrap_in_range (i' + 1)) by lia.
      unfold slice_expr. rewrite !decide_True by lia. f_equal.
      rewrite delete_take_drop, drop_0, Z.sub_0_r. f_equal.
      rewrite take_ge by (rewrite length_drop; unfold len in *; lia).
      f_equal. lia.
Qed.

Lemma Delete_one_index_witness :
  Delete [10; 20; 30] [1] = Some [10; 30]
  ∧ Delete [10; 20; 30] [-1] = Some [10; 20]
  ∧ Delete [10; 20; 30] [3] = Some [10; 20; 30]
  ∧ Delete [10; 20; 30] [-4] = None.
Proof.
  split_and!.
  - rewrite (Delete_one_index [10; 20; 30] 1); [reflexivity|by vm_compute..].
  - rewrite (Delete_one_index [10; 20; 30] (-1)); [reflexivity|by vm_compute..].
  - rewrite (Delete_one_index [10; 20; 30] 3); [reflexivity|by vm_compute..].
  - rewrite (Delete_one_index [10; 20; 30] (-4)); [reflexivity|by vm_compute..].
Defined.

(** X12.  [Delete] with two indices or more never panics: it returns the
    elements whose position is none of the given indices, a negative index
    counting from the end, in their order.  Indices that name no position are
    ignored. *)
Theorem Delete_many_indices {E : Type} (es : list E) (i1 i2 : Z) (rest : list Z) :
  Forall (λ i, int_min ≤ i ≤ int_max) (i1 :: i2 :: rest) → len es ≤ int_max →
  Delete es (i1 :: i2 :: rest)
  = Some (filter (λ p : nat * E,
                    Z.of_nat p.1 ∉ (λ i, if decide (i < 0) then len es + i else i)
                                     <$> i1 :: i2 :: rest)
                 (imap pair es)).*2.
Proof.
  intros Hall Hlen. unfold Delete. rewrite Delete_loop. do 2 f_equal.
  apply filter_ext_in. intros p _. rewrite Delete_index_set.
  assert (from_end es <$> i1 :: i2 :: rest
          = (λ i, if decide (i < 0) then len es + i else i) <$> i1 :: i2 :: rest) as ->;
    [|done].
  apply list_fmap_ext. intros j i Hj. apply from_end_in_range; [|done].
  eapply Forall_lookup_1 in Hall; [|exact Hj]. done.
Qed.

Lemma Delete_many_indices_witness :
  Delete [10; 20; 30; 40] [0; -1; 9] = Some [20; 30].
Proof.
  rewrite (Delete_many_indices [10; 20; 30; 40] 0 (-1) [9]).
  - vm_compute. reflexivity.
  - repeat constructor; vm_compute; discriminate.
  - vm_compute. discriminate.
Defined.


(** ** Deleting by value *)

Section delete_elems_facts.
Context {E : Type} `{Countable E}.
Implicit Types (es delEs front res : list E) (x d : E).

Local Abbreviation cnt x l := (length (filter (λ y, y = x) l)).






End delete_elems_facts.



(** ** Minimum, maximum and equality *)

Lemma Min_loop (v : Z) (rest : list Z) :
  let m := foldl (λ v t, if decide (v > t) then t else v) v rest in
  m ∈ v :: rest ∧ ∀ x, x ∈ v :: rest → m ≤ x.
Proof.
  simpl. induction rest as [|t rest [IHin IHle]] using rev_ind.
  - simpl. split; [by left|]. intros x ->%list_elem_of_singleton. lia.
  - rewrite foldl_snoc.
    set (m := foldl _ v rest) in *.
    destruct (decide (m > t)) as [Hgt|Hle].
    + split.
      * rewrite app_comm_cons, elem_of_app. right. by left.
      * intros x. rewrite app_comm_cons, elem_of_app, list_elem_of_singleton.
        intros [Hx| ->]; [|lia]. specialize (IHle x Hx). lia.
    + split.
      * rewrite app_comm_cons, elem_of_app. by left.
      * intros x. rewrite app_comm_cons, elem_of_app, list_elem_of_singleton.
        intros [Hx| ->]; [by apply IHle|lia].
Qed.

Lemma Max_loop (v : Z) (rest : list Z) :
  let m := foldl (λ v t, if decide (v < t) then t else v) v rest in
  m ∈ v :: rest ∧ ∀ x, x ∈ v :: rest → x ≤ m.
Proof.
  simpl. induction rest as [|t rest [IHin IHle]] using rev_ind.
  - simpl. split; [by left|]. intros x ->%list_elem_of_singleton. lia.
  - rewrite foldl_snoc.
    set (m := foldl _ v rest) in *.
    destruct (decide (m < t)) as [Hgt|Hle].
    + split.
      * rewrite app_comm_cons, elem_of_app. right. by left.
      * intros x. rewrite app_comm_cons, elem_of_app, list_elem_of_singleton.
        intros [Hx| ->]; [|lia]. specialize (IHle x Hx). lia.
    + split.
      * rewrite app_comm_cons, elem_of_app. by left.
      * intros x. rewrite app_comm_cons, elem_of_app, list_elem_of_singleton.
        intros [Hx| ->]; [by apply IHle|lia].
Qed.

(** X14.  On a non-empty argument list [Min] and [Max] return an element of
    the list that bounds all the others from below, respectively from above;
    on the empty list the read of [e[0]] panics. *)
Theorem Min_Max_bounds (e : list Z) :
  (e = [] → Min e = None ∧ Max e = None)
  ∧ (e ≠ [] →
     ∃ lo hi, Min e = Some lo ∧ Max e = Some hi
              ∧ lo ∈ e ∧ hi ∈ e ∧ ∀ x, x ∈ e → lo ≤ x ≤ hi).
Proof.
  split; [by intros ->|]. intros Hne.
  destruct e as [|v rest]; [done|].
  destruct (Min_loop v rest) as [Hlo_in Hlo], (Max_loop v rest) as [Hhi_in Hhi].
  eexists _, _. split_and!; [reflexivity|reflexivity|done|done|].
  intros x Hx. split; [by apply Hlo|by apply Hhi].
Qed.

Lemma Min_Max_bounds_witness :
  Min [] = None ∧ ∃ lo hi, Min [3; -2; 7] = Some lo ∧ Max [3; -2; 7] = Some hi.
Proof.
  split.
  - apply (proj1 (Min_Max_bounds [])). reflexivity.
  - destruct (proj2 (Min_Max_bounds [3; -2; 7])) as (lo & hi & Hlo & Hhi & _).
    + discriminate.
    + exists lo, hi. split; [exact Hlo|exact Hhi].
Defined.


(** ** Option switches *)

(** X17.  A switch reads as on when the map is nil, when the key is not set,
    or when it is set to true.  Setting a key on a map makes it read as the
    value set and leaves the other keys alone; setting a key on the nil map
    has no effect for the caller, so the switch still reads as on, even
    after it was set to false. *)
Theorem Switch_get_after_set (m : gmap string bool) (key key' : string) (value : bool) :
  GetSwitchFromOptions (SetSwitchFromOptions (Some m) key value) key = value
  ∧ (key' ≠ key →
     GetSwitchFromOptions (SetSwitchFromOptions (Some m) key value) key'
     = GetSwitchFromOptions (Some m) key')
  ∧ GetSwitchFromOptions (SetSwitchFromOptions None key false) key = true
  ∧ (m !! key = None → GetSwitchFromOptions (Some m) key = true).
Proof.
  split_and!; simpl.
  - by rewrite lookup_insert_eq.
  - intros Hne. by rewrite lookup_insert_ne.
  - done.
  - by intros ->.
Qed.

Lemma Switch_get_after_set_witness :
  GetSwitchFromOptions (SetSwitchFromOptions (Some {["a" := true]}) "b" false) "a" = true
  ∧ GetSwitchFromOptions (Some {["a" := false]}) "c" = true.
Proof.
  split.
  - rewrite (proj1 (proj2 (Switch_get_after_set {["a" := true]} "b" "a" false)));
      [reflexivity|discriminate].
  - apply (proj2 (proj2 (proj2 (Switch_get_after_set {["a" := false]} "c" "c" true)))).
    reflexivity.
Defined.

(** ** Pagination without overflow *)

(** X18.  When [(pageNumber - 1) * showNumber + showNumber] fits in an [int],
    [Paginate] returns normally: the empty slice for a non-positive page
    number or page size, and otherwise the window of at most [showNumber]
    elements that starts at index [(pageNumber - 1) * showNumber], which is
    empty when that index is past the end. *)
Theorem Paginate_window {E : Type} (es : list E) (pageNumber showNumber : Z) :
  (0 < pageNumber → 0 < showNumber →
   (pageNumber - 1) * showNumber + showNumber ≤ int_max) →
  Paginate es pageNumber showNumber
  = Some (slice_of
            (if decide (pageNumber ≤ 0 ∨ showNumber ≤ 0) then []
             else take (Z.to_nat showNumber)
                       (drop (Z.to_nat ((pageNumber - 1) * showNumber)) es))).
Proof.
  intros Hfit. destruct (decide (pageNumber ≤ 0 ∨ showNumber ≤ 0)) as [Hle|Hpos].
  - by apply Paginate_non_positive.
  - apply Paginate_in_range; [lia|lia|apply Hfit; lia].
Qed.

Lemma Paginate_window_witness :
  Paginate [1; 2; 3; 4; 5; 6; 7; 8; 9; 10] 4 3 = Some (slice_of [10])
  ∧ Paginate [1; 2; 3] 0 3 = Some (slice_of []).
Proof.
  split.
  - rewrite (Paginate_window [1; 2; 3; 4; 5; 6; 7; 8; 9; 10] 4 3); [reflexivity|].
    intros _ _. vm_compute. discriminate.
  - rewrite (Paginate_window [1; 2; 3] 0 3); [reflexivity|].
    intros _ _. vm_compute. discriminate.
Defined.

Lemma pages_concat {E : Type} (es : list E) (s n : nat) :
  concat ((λ p : nat, take s (drop ((p - 1) * s) es)) <$> seq 1 n) = take (n * s) es.
Proof.
  induction n as [|n IH]; [done|].
  rewrite seq_S, fmap_app, concat_app, IH. simpl.
  rewrite app_nil_r, Nat.sub_0_r.
  rewrite take_take_drop. f_equal. lia.
Qed.

(** X19.  The pages partition the slice: for a positive page size, pages
    [1] to [n] are all returned normally, and when [n] pages are enough to
    hold the slice their concatenation is the slice itself. *)
Theorem Paginate_pages_cover {E : Type} (es : list E) (showNumber : Z) (n : nat) :
  0 < showNumber → Z.of_nat n * showNumber ≤ int_max →
  len es ≤ Z.of_nat n * showNumber →
  ∃ pages : list (list E),
    Forall2 (λ (p : nat) pg, Paginate es (Z.of_nat p) showNumber = Some (slice_of pg))
            (seq 1 n) pages
    ∧ concat pages = es.
Proof.
  intros Hs Hmax Hlen.
  exists ((λ p : nat, take (Z.to_nat showNumber)
                           (drop ((p - 1) * Z.to_nat showNumber) es)) <$> seq 1 n).
  split.
  - apply Forall2_fmap_r, Forall2_same_length_lookup. split; [done|].
    intros i p p' Hp Hp'. rewrite Hp in Hp'. injection Hp' as <-.
    apply lookup_seq in Hp as [-> Hi].
    rewrite Paginate_in_range; [|lia|lia|nia].
    do 3 f_equal. rewrite Z2Nat.inj_mul by lia. f_equal. lia.
  - rewrite pages_concat. apply take_ge. unfold len in Hlen. nia.
Qed.

Lemma Paginate_pages_cover_witness :
  ∃ pages : list (list Z),
    Forall2 (λ (p : nat) pg, Paginate [1; 2; 3; 4; 5; 6; 7] (Z.of_nat p) 3 = Some (slice_of pg))
            (seq 1 3) pages
    ∧ concat pages = [1; 2; 3; 4; 5; 6; 7].
Proof.
  apply (Paginate_pages_cover [1; 2; 3; 4; 5; 6; 7] 3 3).
  - reflexivity.
  - vm_compute. discriminate.
  - vm_compute. discriminate.
Defined.


(** * Properties of the functions that iterate over a map *)

(** ** Maps whose keys all equal themselves *)

Section gomap_facts.
Context {K V : Type} `{Countable K} `{!GoKey K}.
Implicit Types (g : gmap K V) (k : K).

Lemma go_lookup_self k g (l : list (K * V)) :
  self_eq k = true → go_lookup (GoMap g l) k = g !! k.
Proof. unfold go_lookup. by intros ->. Qed.

Lemma go_lookup_not_self k (m : gomap K V) :
  self_eq k = false → go_lookup m k = None.
Proof. unfold go_lookup. by intros ->. Qed.

Lemma go_insert_self k (v : V) g (l : list (K * V)) :
  self_eq k = true → go_insert k v (GoMap g l) = GoMap (<[k := v]> g) l.
Proof. unfold go_insert. by intros ->. Qed.

Lemma go_lookup_keyed k g :
  (∀ k, is_Some (g !! k) → self_eq k = true) →
  go_lookup (GoMap g []) k = g !! k.
Proof.
  intros Hg. unfold go_lookup; simpl.
  destruct (self_eq k) eqn:Hk; [done|].
  destruct (g !! k) as [v|] eqn:Hv; [|done].
  rewrite Hg in Hk; [done|by rewrite Hv].
Qed.

Lemma go_delete_keyed k g :
  (∀ k, is_Some (g !! k) → self_eq k = true) →
  go_delete k (GoMap g []) = GoMap (delete k g) [].
Proof.
  intros Hg. unfold go_delete; simpl.
  destruct (self_eq k) eqn:Hk; [done|]. f_equal.
  symmetry. apply delete_id.
  destruct (g !! k) as [v|] eqn:Hv; [|done].
  rewrite Hg in Hk; [done|by rewrite Hv].
Qed.

Context `{!MapRange K}.

Lemma range_keyed g : range (GoMap g []) ≡ₚ map_to_list g.
Proof. rewrite range_perm. unfold go_entries. simpl. by rewrite app_nil_r. Qed.

Lemma elem_of_range k (v : V) g :
  (k, v) ∈ range (GoMap g []) ↔ g !! k = Some v.
Proof. rewrite range_keyed. apply elem_of_map_to_list. Qed.

Lemma elem_of_range_keys k g :
  k ∈ (range (GoMap g [])).*1 ↔ is_Some (g !! k).
Proof.
  rewrite list_elem_of_fmap. split.
  - intros ([k' v] & -> & Hin). apply elem_of_range in Hin. by exists v.
  - intros [v Hv]. exists (k, v). split; [done|]. by apply elem_of_range.
Qed.

Lemma NoDup_range_keys g : NoDup (range (GoMap g [])).*1.
Proof. rewrite range_keyed. apply NoDup_fst_map_to_list. Qed.
End gomap_facts.

(** ** Deduplication at keys that equal themselves *)

Section keyed_distinct_facts.
Context {E K : Type} `{Countable K} `{!GoKey K}.

Lemma Keyed_DistinctAny_loop (fn : E → K) (es : list E) :
  (∀ x, x ∈ es → self_eq (fn x) = true) →
  ∃ g : gmap K unit,
    foldl (Keyed.DistinctAny_step fn) (go_empty, []) es = (GoMap g [], keep_first fn es)
    ∧ ∀ k, is_Some (g !! k) ↔ k ∈ fn <$> es.
Proof.
  induction es as [|x es IH] using rev_ind; intros Hself.
  - exists ∅. split; [done|]. intros k.
    rewrite lookup_empty, elem_of_nil. split; [by intros [? ?]|done].
  - destruct IH as (g & Hloop & Hg).
    { intros y Hy. apply Hself, elem_of_app. by left. }
    assert (self_eq (fn x) = true) as Hx.
    { apply Hself, elem_of_app. right. by left. }
    rewrite foldl_snoc, Hloop, keep_first_snoc.
    unfold Keyed.DistinctAny_step; simpl. rewrite go_lookup_self by done.
    destruct (decide (fn x ∈ fn <$> es)) as [Hin|Hin].
    + rewrite decide_True by (by apply Hg). exists g. split.
      * by rewrite app_nil_r.
      * intros k. rewrite Hg, fmap_app, elem_of_app. split; [tauto|].
        intros [?|Hk%list_elem_of_singleton]; [done|by subst k].
    + rewrite decide_False by (by rewrite Hg).
      rewrite go_insert_self by done. exists (<[fn x := ()]> g). split; [done|].
      intros k. rewrite fmap_app, elem_of_app. simpl.
      rewrite list_elem_of_singleton, <- Hg.
      destruct (decide (fn x = k)) as [->|Hne].
      * rewrite lookup_insert_eq. split; [by right|by eauto].
      * rewrite lookup_insert_ne by done. split; [tauto|].
        intros [?|?]; [done|congruence].
Qed.

Lemma Keyed_DistinctAny_self (es : list E) (fn : E → K) :
  (∀ x, x ∈ es → self_eq (fn x) = true) →
  Keyed.DistinctAny es fn = DistinctAny es fn.
Proof.
  intros Hself. destruct (Keyed_DistinctAny_loop fn es Hself) as (g & Hloop & _).
  unfold Keyed.DistinctAny. by rewrite Hloop, DistinctAny_keep_first.
Qed.
End keyed_distinct_facts.

Lemma Keyed_Distinct_self {T : Type} `{GoKey T} (ts : list T) :
  (∀ x, x ∈ ts → self_eq x = true) → Keyed.Distinct ts = Distinct ts.
Proof.
  intros Hself. unfold Keyed.Distinct, Distinct.
  destruct (decide (length ts < 2)%nat); [done|].
  destruct (decide (length ts = 2%nat)); [|by apply Keyed_DistinctAny_self].
  destruct ts as [|t0 [|t1 ts]]; [done..|].
  unfold go_eq. rewrite Hself by (by left). simpl.
  destruct (decide (t0 = t1)).
  - by rewrite bool_decide_eq_true_2.
  - by rewrite bool_decide_eq_false_2.
Qed.

(** ** Symmetric difference *)

Section single_facts.
Context {E : Type} `{Countable E} `{!GoKey E} `{!MapRange E}.

Local Abbreviation incr_keyed :=
  (λ (g : gmap E Z) (e : E), <[e := (default 0 (g !! e) + 1) mod 256]> g).

Lemma incr_loop_keyed (l : list E) (g : gmap E Z) :
  (∀ x, x ∈ l → self_eq x = true) →
  foldl incr (GoMap g []) l = GoMap (foldl incr_keyed g l) [].
Proof.
  revert g. induction l as [|x l IH]; intros g Hself; [done|]. simpl.
  assert (self_eq x = true) as Hx by (apply Hself; by left).
  unfold incr at 2. rewrite go_lookup_self, go_insert_self by done.
  apply IH. intros y Hy. apply Hself. by right.
Qed.

Lemma incr_loop (l : list E) (g : gmap E Z) (e : E) :
  NoDup l →
  foldl incr_keyed g l !! e
  = if decide (e ∈ l) then Some ((default 0 (g !! e) + 1) mod 256) else g !! e.
Proof.
  revert g. induction l as [|x l IH]; intros g Hnd.
  - rewrite decide_False by apply not_elem_of_nil. done.
  - apply NoDup_cons in Hnd as [Hx Hnd]. simpl foldl.
    rewrite IH by done.
    destruct (decide (e = x)) as [->|Hne].
    + rewrite (decide_False (P := x ∈ l)) by done.
      rewrite (decide_True (P := x ∈ x :: l)) by (by left).
      by rewrite lookup_insert_eq.
    + rewrite lookup_insert_ne by done.
      destruct (decide (e ∈ l)) as [Hin|Hin].
      * rewrite (decide_True (P := e ∈ x :: l)) by (by right). done.
      * rewrite (decide_False (P := e ∈ x :: l)); [done|].
        rewrite elem_of_cons. tauto.
Qed.

Lemma Single_loop (l : list (E * Z)) :
  foldl (λ (v : list E) (p : E * Z), if decide (p.2 = 1) then v ++ [p.1] else v) [] l
  = (filter (λ p : E * Z, p.2 = 1) l).*1.
Proof.
  induction l as [|p l IH] using rev_ind; [done|].
  rewrite foldl_snoc, IH, filter_app, fmap_app, filter_cons, filter_nil.
  destruct (decide (p.2 = 1)); simpl; [done|by rewrite app_nil_r].
Qed.

(** The counting map of [Single] on slices without an element that differs
    from itself. *)
Lemma Single_counts (a b : list E) :
  (∀ x, x ∈ a ++ b → self_eq x = true) →
  ∃ g : gmap E Z,
    Single a b = (filter (λ p : E * Z, p.2 = 1) (range (GoMap g []))).*1
    ∧ ∀ k, g !! k
           = if decide (k ∈ b)
             then Some (((if decide (k ∈ a) then 1 else 0) + 1) mod 256)
             else if decide (k ∈ a) then Some 1 else None.
Proof.
  intros Hself.
  assert (∀ x, x ∈ a → self_eq x = true) as Ha
    by (intros x Hx; apply Hself, elem_of_app; by left).
  assert (∀ x, x ∈ b → self_eq x = true) as Hb
    by (intros x Hx; apply Hself, elem_of_app; by right).
  assert (foldl incr (foldl incr go_empty (Keyed.Distinct a)) (Keyed.Distinct b)
          = GoMap (foldl incr_keyed (foldl incr_keyed ∅ (Distinct a)) (Distinct b)) [])
    as Hkn.
  { rewrite !Keyed_Distinct_self by done. unfold go_empty.
    rewrite (incr_loop_keyed (Distinct a)).
    - apply incr_loop_keyed. intros x Hx. by apply Hb, (Distinct_elem_of b).
    - intros x Hx. by apply Ha, (Distinct_elem_of a). }
  unfold Single. rewrite Single_loop, Hkn.
  eexists. split; [reflexivity|]. intros k.
  rewrite !incr_loop by apply Distinct_NoDup. rewrite lookup_empty. simpl.
  destruct (decide (k ∈ Distinct b)) as [Hkb|Hkb]; rewrite Distinct_elem_of in Hkb;
    destruct (decide (k ∈ Distinct a)) as [Hka|Hka]; rewrite Distinct_elem_of in Hka;
    destruct (decide (k ∈ b)); destruct (decide (k ∈ a)); done.
Qed.

Lemma elem_of_Single (a b : list E) (k : E) :
  (∀ x, x ∈ a ++ b → self_eq x = true) →
  k ∈ Single a b ↔ ((k ∈ a ∧ k ∉ b) ∨ (k ∈ b ∧ k ∉ a)).
Proof.
  intros Hself. destruct (Single_counts a b Hself) as (g & -> & Hg).
  rewrite list_elem_of_fmap. split.
  - intros ([k' n] & -> & Hin). apply list_elem_of_filter in Hin as [Hn Hin].
    simpl in *. subst n. apply elem_of_range in Hin. rewrite Hg in Hin.
    destruct (decide (k' ∈ b)), (decide (k' ∈ a)); try done; tauto.
  - intros Hk. exists (k, 1). split; [done|].
    apply list_elem_of_filter. split; [done|]. apply elem_of_range. rewrite Hg.
    destruct (decide (k ∈ b)), (decide (k ∈ a)); try done; tauto.
Qed.

Lemma NoDup_Single (a b : list E) :
  (∀ x, x ∈ a ++ b → self_eq x = true) → NoDup (Single a b).
Proof.
  intros Hself. destruct (Single_counts a b Hself) as (g & -> & _).
  apply (sublist_NoDup _ (range (GoMap g [])).*1).
  - apply NoDup_range_keys.
  - apply fmap_sublist, sublist_filter.
Qed.

Lemma Complete_Single (a b : list E) :
  Complete a b = true ↔ Single a b = [].
Proof.
  unfold Complete. rewrite bool_decide_eq_true.
  split; [apply nil_length_inv|by intros ->].
Qed.
End single_facts.

(** C7, as the code has it.  [Complete a b] holds exactly when [Single a b]
    is empty.  When no element of [a] and [b] differs from itself, then for
    every iteration order of the counting map the elements of [Single a b]
    are those that occur in one of [a] and [b] only, and [Complete a b] holds
    exactly when [a] and [b] have the same elements as sets, whatever their
    order and multiplicity. *)
Theorem Complete_same_key_set {E : Type} `{Countable E} `{!GoKey E} `{!MapRange E}
    (a b : list E) :
  (Complete a b = true ↔ Single a b = [])
  ∧ ((∀ x, x ∈ a ++ b → self_eq x = true) →
     (Complete a b = true ↔ ∀ k, k ∈ a ↔ k ∈ b)
     ∧ (∀ k, k ∈ Single a b ↔ ((k ∈ a ∧ k ∉ b) ∨ (k ∈ b ∧ k ∉ a)))).
Proof.
  split; [apply Complete_Single|]. intros Hself. split.
  - rewrite Complete_Single. split.
    + intros Hnil k.
      pose proof (elem_of_Single a b k Hself) as Hk. rewrite Hnil in Hk.
      rewrite elem_of_nil in Hk.
      destruct (decide (k ∈ a)), (decide (k ∈ b)); tauto.
    + intros Hsame. apply elem_of_nil_inv. intros k.
      rewrite elem_of_Single by done. rewrite (Hsame k). tauto.
  - intros k. by apply elem_of_Single.
Qed.

Lemma Complete_same_key_set_witness :
  Complete (MapRange0 := fwd_range Z) [1; 2; 2; 3] [3; 1; 2] = true
  ∧ (2 ∈ Single (MapRange0 := fwd_range Z) [1; 2] [1; 5]
     ↔ ((2 ∈ [1; 2] ∧ 2 ∉ [1; 5]) ∨ (2 ∈ [1; 5] ∧ 2 ∉ [1; 2]))).
Proof.
  split.
  - apply (proj1 (Complete_same_key_set (MapRange0 := fwd_range Z) [1; 2; 2; 3] [3; 1; 2])).
    vm_compute. reflexivity.
  - apply (proj2 (Complete_same_key_set (MapRange0 := fwd_range Z) [1; 2] [1; 5])).
    intros x _. reflexivity.
Defined.

(** A slice that holds a NaN is not complete against itself: each NaN makes
    an entry of its own in the counting map, with count 1. *)
Lemma Complete_NaN_not_reflexive :
  ¬ (Complete (MapRange0 := fwd_range float_key) [NaN] [NaN] = true
     ↔ ∀ k : float_key, k ∈ [NaN] ↔ k ∈ [NaN]).
Proof.
  intros [_ Hsame]. specialize (Hsame (λ k, reflexivity _)).
  vm_compute in Hsame. discriminate Hsame.
Qed.

Example Single_NaN_NaN :
  Single (MapRange0 := fwd_range float_key) [NaN] [NaN] = [NaN; NaN]
  ∧ Single (MapRange0 := fwd_range float_key) [NaN; NaN; Num 1] [Num 1] = [NaN; NaN].
Proof. split; vm_compute; reflexivity. Qed.

(** ** Re-sequencing *)

Section order_facts.
Context {E T : Type} `{Countable E} `{!GoKey E} `{!MapRange E}.
Implicit Types (es ks : list E) (ts : list T) (fn : T → E).

Local Abbreviation group_keyed ts fn :=
  (foldl (λ (kv : gmap E (list T)) t, <[fn t := default [] (kv !! fn t) ++ [t]]> kv) ∅ ts).

Local Abbreviation Order_step_keyed :=
  (λ (st : gmap E (list T) * list T) (e : E),
     (delete e st.1, st.2 ++ default [] (st.1 !! e))).

Lemma key_group_snoc fn ts t k :
  key_group fn (ts ++ [t]) k
  = key_group fn ts k ++ (if decide (fn t = k) then [t] else []).
Proof. unfold key_group. by rewrite filter_app, filter_cons, filter_nil. Qed.

Lemma key_group_nil_iff fn ts k : key_group fn ts k = [] ↔ k ∉ fn <$> ts.
Proof.
  unfold key_group. split.
  - intros Hnil (t & -> & Hin)%list_elem_of_fmap.
    exact (filter_nil_not_elem_of _ ts t Hnil eq_refl Hin).
  - intros Hk. apply elem_of_nil_inv. intros t [Ht Hin]%list_elem_of_filter.
    apply Hk, list_elem_of_fmap. by exists t.
Qed.

(** When no key of [ts] differs from itself, the grouping map has no loose
    entry. *)
Lemma group_by_keyed fn ts :
  (∀ t, t ∈ ts → self_eq (fn t) = true) →
  group_by ts fn = GoMap (group_keyed ts fn) [].
Proof.
  unfold group_by, go_empty. generalize (∅ : gmap E (list T)).
  induction ts as [|t ts IH]; intros g Hself; [done|]. simpl.
  assert (self_eq (fn t) = true) as Ht by (apply Hself; by left).
  rewrite go_lookup_self, go_insert_self by done.
  apply IH. intros t' Ht'. apply Hself. by right.
Qed.

(** The grouping map holds, under every key of [ts], its group. *)
Lemma group_keyed_lookup fn ts k :
  group_keyed ts fn !! k
  = if decide (k ∈ fn <$> ts) then Some (key_group fn ts k) else None.
Proof.
  induction ts as [|t ts IH] using rev_ind.
  - rewrite decide_False by apply not_elem_of_nil. apply lookup_empty.
  - rewrite foldl_snoc, key_group_snoc, fmap_app.
    destruct (decide (fn t = k)) as [Heq|Hne].
    + subst k. rewrite lookup_insert_eq, IH.
      rewrite (decide_True (P := fn t ∈ (fn <$> ts) ++ _))
        by (apply elem_of_app; right; by left).
      f_equal. f_equal.
      destruct (decide (fn t ∈ fn <$> ts)) as [Hin|Hin]; [done|].
      symmetry. by apply key_group_nil_iff.
    + rewrite lookup_insert_ne by done. rewrite IH, app_nil_r.
      destruct (decide (k ∈ fn <$> ts)) as [Hin|Hin].
      * rewrite decide_True by (apply elem_of_app; by left). done.
      * rewrite decide_False; [done|].
        intros [?|?%list_elem_of_singleton]%elem_of_app; done.
Qed.

Lemma group_keyed_default fn ts k :
  default [] (group_keyed ts fn !! k) = key_group fn ts k.
Proof.
  rewrite group_keyed_lookup. destruct (decide _) as [Hin|Hin]; [done|].
  symmetry. by apply key_group_nil_iff.
Qed.

(** The loop over the reference keys on the entries a lookup finds: every
    key met is taken out of the map, and its group is emitted the first time
    only. *)
Lemma Order_loop_keyed (kv : gmap E (list T)) es :
  foldl Order_step_keyed (kv, []) es
  = (filter (λ p : E * list T, p.1 ∉ es) kv,
     flat_map (λ e, default [] (kv !! e)) (keep_first (λ k : E, k) es)).
Proof.
  induction es as [|e es IH] using rev_ind.
  - simpl. f_equal. symmetry. apply map_filter_id. intros ? ? ?.
    apply not_elem_of_nil.
  - rewrite foldl_snoc, IH, keep_first_snoc, list_fmap_id, flat_map_app.
    simpl. f_equal.
    + apply map_eq. intros k. destruct (decide (k = e)) as [->|Hne].
      * rewrite lookup_delete_eq. symmetry. apply map_lookup_filter_None.
        right. intros ? _ Hn. apply Hn, elem_of_app. right. by left.
      * rewrite lookup_delete_ne by done.
        destruct (kv !! k) as [l|] eqn:Hk.
        -- destruct (decide (k ∈ es)) as [Hin|Hin].
           ++ transitivity (@None (list T)); [|symmetry];
                apply map_lookup_filter_None; right; intros ? _ Hn; apply Hn;
                simpl; [done|apply elem_of_app; by left].
           ++ transitivity (Some l); [|symmetry];
                apply map_lookup_filter_Some; (split; [done|]); simpl; [done|].
              rewrite elem_of_app, list_elem_of_singleton. naive_solver.
        -- transitivity (@None (list T)); [|symmetry];
             apply map_lookup_filter_None; by left.
    + f_equal. destruct (decide (e ∈ es)) as [Hin|Hin]; simpl.
      * assert (filter (λ p : E * list T, p.1 ∉ es) kv !! e = None) as ->; [|done].
        apply map_lookup_filter_None. right. intros ? _ Hn. by apply Hn.
      * rewrite app_nil_r. destruct (kv !! e) as [l|] eqn:Hk.
        -- assert (filter (λ p : E * list T, p.1 ∉ es) kv !! e = Some l) as ->; [|done].
           by apply map_lookup_filter_Some.
        -- assert (filter (λ p : E * list T, p.1 ∉ es) kv !! e = None) as ->; [|done].
           apply map_lookup_filter_None. by left.
Qed.

(** On a map whose keys all equal themselves the loop of [Order] is that
    loop, whatever the reference keys are. *)
Lemma Order_loop_bridge (kv : gmap E (list T)) (rs : list T) es :
  (∀ k, is_Some (kv !! k) → self_eq k = true) →
  foldl Order_step (GoMap kv [], rs) es
  = (GoMap (foldl Order_step_keyed (kv, rs) es).1 [],
     (foldl Order_step_keyed (kv, rs) es).2).
Proof.
  revert kv rs. induction es as [|e es IH]; intros kv rs Hkv; [done|]. simpl.
  unfold Order_step at 2. simpl.
  rewrite go_delete_keyed, go_lookup_keyed by done.
  apply IH. intros k [l Hl]. apply Hkv.
  destruct (decide (k = e)) as [->|Hne].
  - by rewrite lookup_delete_eq in Hl.
  - rewrite lookup_delete_ne in Hl by done. by rewrite Hl.
Qed.

Lemma Order_tail_loop (m : gomap E (list T)) (rs : list T) ks :
  foldl (λ (rs : list T) (k : E), rs ++ default [] (go_lookup m k)) rs ks
  = rs ++ flat_map (λ k, default [] (go_lookup m k)) ks.
Proof.
  revert rs. induction ks as [|k ks IH]; intros rs; simpl.
  - by rewrite app_nil_r.
  - by rewrite IH, app_assoc.
Qed.

Lemma flat_map_ext_in {A B : Type} (f g : A → list B) (l : list A) :
  (∀ x, x ∈ l → f x = g x) → flat_map f l = flat_map g l.
Proof.
  induction l as [|a l IH]; intros Hfg; [done|]. simpl.
  rewrite Hfg by (by left). rewrite IH; [done|].
  intros x Hx. apply Hfg. by right.
Qed.

Lemma unseen_keys_NoDup es ts fn : NoDup (unseen_keys es ts fn).
Proof.
  unfold unseen_keys.
  pose proof (keep_first_NoDup (λ k : E, k) (filter (λ k, k ∉ es) (fn <$> ts))) as Hnd.
  by rewrite list_fmap_id in Hnd.
Qed.

Lemma elem_of_unseen_keys es ts fn k :
  k ∈ unseen_keys es ts fn ↔ k ∈ fn <$> ts ∧ k ∉ es.
Proof.
  unfold unseen_keys.
  pose proof (keep_first_keys (λ k : E, k) (filter (λ k, k ∉ es) (fn <$> ts)) k) as Hk.
  rewrite !list_fmap_id in Hk. rewrite Hk, list_elem_of_filter. tauto.
Qed.

(** The shape of the result on non-empty inputs whose keys all equal
    themselves: the groups of the reference keys in order of first
    appearance, then the groups of the other keys in the order the map
    iteration visits them. *)
Lemma Order_shape es ts fn :
  (∀ t, t ∈ ts → self_eq (fn t) = true) →
  es ≠ [] → ts ≠ [] →
  ∃ ks, ks ≡ₚ unseen_keys es ts fn
        ∧ Order es ts fn
          = flat_map (key_group fn ts) (keep_first (λ k : E, k) es)
            ++ flat_map (key_group fn ts) ks.
Proof.
  intros Hself Hes Hts. unfold Order.
  rewrite decide_False by (destruct es, ts; naive_solver).
  assert (∀ k, is_Some (group_keyed ts fn !! k) → self_eq k = true) as Hkeys.
  { intros k [l Hl]. rewrite group_keyed_lookup in Hl.
    destruct (decide (k ∈ fn <$> ts)) as [(t & -> & Ht)%list_elem_of_fmap|]; [|done].
    by apply Hself. }
  rewrite group_by_keyed, Order_loop_bridge, Order_loop_keyed by done.
  simpl. rewrite Order_tail_loop.
  set (m := filter (λ p : E * list T, p.1 ∉ es) (group_keyed ts fn)).
  assert (∀ k, is_Some (m !! k) ↔ k ∈ fn <$> ts ∧ k ∉ es) as Hm.
  { intros k. unfold m. split.
    - intros [l [Hl Hk]%map_lookup_filter_Some]. split; [|done].
      rewrite group_keyed_lookup in Hl. by destruct (decide (k ∈ fn <$> ts)).
    - intros [Hin Hk]. exists (key_group fn ts k).
      apply map_lookup_filter_Some. split; [|done].
      rewrite group_keyed_lookup. by rewrite decide_True. }
  exists (range (GoMap m [])).*1. split_and!.
  - apply NoDup_Permutation.
    + apply NoDup_range_keys.
    + apply unseen_keys_NoDup.
    + intros k. by rewrite elem_of_range_keys, elem_of_unseen_keys, Hm.
  - f_equal.
    + apply flat_map_ext_in. intros k _. apply group_keyed_default.
    + apply flat_map_ext_in. intros k Hk.
      apply elem_of_range_keys in Hk as [l Hl].
      rewrite go_lookup_self.
      * rewrite Hl. simpl.
        apply map_lookup_filter_Some in Hl as [Hl _].
        rewrite <- (group_keyed_default fn ts k). by rewrite Hl.
      * apply Hkeys. apply map_lookup_filter_Some in Hl as [Hl _]. by rewrite Hl.
Qed.
End order_facts.

Section order_perm.
Context {E T : Type} `{Countable E} `{!GoKey E} `{!MapRange E}.

(** Laying the groups of a duplicate-free key list that covers [ts] end to
    end rearranges [ts]. *)
Lemma key_groups_Permutation (fn : T → E) (ts : list T) (ks : list E) :
  NoDup ks → (∀ t, t ∈ ts → fn t ∈ ks) →
  flat_map (key_group fn ts) ks ≡ₚ ts.
Proof.
  revert ts. induction ks as [|k ks IH]; intros ts Hnd Hall.
  - destruct ts as [|t ts]; [done|].
    exfalso. apply (not_elem_of_nil (fn t)), Hall. by left.
  - apply NoDup_cons in Hnd as [Hk Hnd]. simpl.
    etrans; [|apply (filter_app_complement (λ t, fn t = k) ts)].
    apply Permutation_app_head.
    set (ts' := filter (λ t, ¬ fn t = k) ts).
    rewrite (flat_map_ext_in (key_group fn ts) (key_group fn ts')).
    + apply IH; [done|]. intros t [Hne Hin]%list_elem_of_filter.
      apply Hall in Hin. apply elem_of_cons in Hin as [?|?]; done.
    + intros k' Hk'. unfold key_group, ts'.
      rewrite list_filter_filter. apply list_filter_iff.
      intros t. split; [|tauto]. intros Ht. split; [done|].
      intros Hk2. apply Hk. by rewrite <- Hk2, Ht.
Qed.

Lemma Order_Permutation (es : list E) (ts : list T) (fn : T → E) :
  (∀ t, t ∈ ts → self_eq (fn t) = true) →
  Order es ts fn ≡ₚ ts.
Proof.
  intros Hself.
  destruct (decide (es = [])) as [->|Hes]; [done|].
  destruct (decide (ts = [])) as [->|Hts].
  { unfold Order. by rewrite decide_True by (by right). }
  destruct (Order_shape es ts fn Hself Hes Hts) as (ks & Hks & ->).
  rewrite <- flat_map_app. apply key_groups_Permutation.
  - apply NoDup_app. split_and!.
    + pose proof (keep_first_NoDup (λ k : E, k) es) as Hnd.
      by rewrite list_fmap_id in Hnd.
    + intros k Hk. rewrite Hks, elem_of_unseen_keys. intros [_ Hn]. apply Hn.
      pose proof (keep_first_keys (λ k : E, k) es k) as Hkk.
      rewrite !list_fmap_id in Hkk. by apply Hkk.
    + rewrite Hks. apply unseen_keys_NoDup.
  - intros t Ht. apply elem_of_app.
    destruct (decide (fn t ∈ es)) as [Hin|Hin].
    + left. pose proof (keep_first_keys (λ k : E, k) es (fn t)) as Hkk.
      rewrite !list_fmap_id in Hkk. by apply Hkk.
    + right. rewrite Hks, elem_of_unseen_keys. split; [|done].
      apply list_elem_of_fmap. by exists t.
Qed.
End order_perm.

Example Order_reference_2_1_3 :
  Order (MapRange0 := fwd_range Z) [2; 1; 3] [(1, 10); (3, 20); (1, 30); (4, 40)] fst
  = [(1, 10); (1, 30); (3, 20); (4, 40)].
Proof. vm_compute. reflexivity. Qed.

(** An element whose key differs from itself is lost: its group is stored
    under a key that the read in the last loop does not find. *)
Example Order_NaN_key_lost :
  Order (MapRange0 := fwd_range float_key) [Num 1] [NaN] (λ x, x) = []
  ∧ Order (MapRange0 := fwd_range float_key) [Num 1]
          [(NaN, 10); (Num 7, 20); (NaN, 30)] fst
    = [(Num 7, 20)].
Proof. split; vm_compute; reflexivity. Qed.

(** C3, as the code has it.  When [es] or [ts] is empty, [Order] returns [ts]
    as it is.  Otherwise, when no key of [ts] differs from itself, it emits
    the elements of [ts] group by group: first the groups of the keys of
    [es], in the order in which the keys first appear in [es], then the
    groups of the keys of [ts] that [es] does not mention, each such key
    once, in an order that the iteration over the map decides.  Inside a
    group the elements keep their order in [ts]. *)
Theorem Order_groups {E T : Type} `{Countable E} `{!GoKey E} `{!MapRange E}
    (es : list E) (ts : list T) (fn : T → E) :
  (es = [] ∨ ts = [] → Order es ts fn = ts)
  ∧ ((∀ t, t ∈ ts → self_eq (fn t) = true) → es ≠ [] → ts ≠ [] →
     ∃ ks, ks ≡ₚ unseen_keys es ts fn
           ∧ Order es ts fn
             = flat_map (key_group fn ts) (keep_first (λ k : E, k) es)
               ++ flat_map (key_group fn ts) ks).
Proof.
  split.
  - intros Hempty. unfold Order.
    rewrite decide_True; [done|]. destruct Hempty as [-> | ->]; auto.
  - apply Order_shape.
Qed.

Lemma Order_groups_witness :
  Order (MapRange0 := fwd_range Z) [] [(4, 40); (1, 10)] fst = [(4, 40); (1, 10)]
  ∧ ∃ ks, ks ≡ₚ [4]
          ∧ Order (MapRange0 := fwd_range Z) [2; 1; 3]
                  [(1, 10); (3, 20); (1, 30); (4, 40)] fst
            = [(1, 10); (1, 30); (3, 20)] ++ flat_map (key_group fst [(1, 10); (3, 20); (1, 30); (4, 40)]) ks.
Proof.
  split.
  - apply (proj1 (Order_groups (MapRange0 := fwd_range Z) [] [(4, 40); (1, 10)] fst)).
    left. reflexivity.
  - destruct (proj2 (Order_groups (MapRange0 := fwd_range Z) [2; 1; 3]
                       [(1, 10); (3, 20); (1, 30); (4, 40)] fst))
      as (ks & Hks & Heq); [by intros t _|discriminate|discriminate|].
    exists ks. split; [exact Hks|exact Heq].
Defined.

(** Under one legal iteration order the two unseen elements [4] and [5] come
    out as [5; 4], while their original relative order is [4; 5]. *)
Lemma Order_unseen_order_not_kept :
  ¬ (∀ R : MapRange Z,
       Order (MapRange0 := R) [1] [4; 5] (λ x : Z, x)
       = Order_spec [1] [4; 5] (λ x : Z, x)).
Proof.
  intros Hall. specialize (Hall (fwd_range Z)).
  vm_compute in Hall. discriminate Hall.
Qed.

(** The reverse iteration order is as legal, and gives the other answer. *)
Example Order_unseen_rev_range :
  Order (MapRange0 := rev_range Z) [1] [4; 5] (λ x : Z, x) = [4; 5]
  ∧ Order (MapRange0 := fwd_range Z) [1] [4; 5] (λ x : Z, x) = [5; 4].
Proof. split; vm_compute; reflexivity. Qed.

(** C10, as the code has it.  When no key of [ts] differs from itself, then
    for every iteration order [Order es ts fn] is a rearrangement of [ts]: it
    has the length of [ts] and holds every element as often as [ts] does,
    also when [es] repeats a key or names a key without elements. *)
Theorem Order_is_permutation {E T : Type} `{Countable E} `{!GoKey E} `{!MapRange E}
    (es : list E) (ts : list T) (fn : T → E) :
  (∀ t, t ∈ ts → self_eq (fn t) = true) →
  Order es ts fn ≡ₚ ts ∧ length (Order es ts fn) = length ts.
Proof.
  intros Hself. pose proof (Order_Permutation es ts fn Hself) as Hp.
  split; [done|]. by rewrite Hp.
Qed.

Lemma Order_is_permutation_witness :
  Order (MapRange0 := rev_range Z) [3; 1; 3; 9] [(1, 10); (3, 20); (1, 30); (4, 40)] fst
  ≡ₚ [(1, 10); (3, 20); (1, 30); (4, 40)].
Proof.
  apply (Order_is_permutation (MapRange0 := rev_range Z) [3; 1; 3; 9]
           [(1, 10); (3, 20); (1, 30); (4, 40)] fst).
  by intros t _.
Defined.

(** The only element of [ts] has the key NaN, and the result is empty. *)
Lemma Order_drops_NaN_key :
  ¬ (Order (MapRange0 := fwd_range float_key) [Num 1] [NaN] (λ x, x) ≡ₚ [NaN]).
Proof.
  intros Hperm. apply Permutation_length in Hperm.
  vm_compute in Hperm. discriminate Hperm.
Qed.

(** X20.  When every key of [ts] is [==] to a key of the reference list, the
    result of [Order] does not depend on the iteration order of the map: it
    is the groups of the reference keys, in order of first appearance. *)
Theorem Order_covered_deterministic {E T : Type} `{Countable E} `{!GoKey E} `{!MapRange E}
    (es : list E) (ts : list T) (fn : T → E) :
  (∀ t, t ∈ ts → key_in (fn t) es) →
  Order es ts fn = flat_map (key_group fn ts) (keep_first (λ k : E, k) es).
Proof.
  intros Hcov. destruct (decide (ts = [])) as [->|Hts].
  { unfold Order. rewrite decide_True by (by right).
    induction (keep_first _ es) as [|k ks IH]; [done|]. simpl. by rewrite <- IH. }
  assert (es ≠ []) as Hes.
  { intros ->. destruct ts as [|t ts]; [done|].
    apply (not_elem_of_nil (fn t)), Hcov. by left. }
  destruct (Order_shape es ts fn (λ t Ht, proj1 (Hcov t Ht)) Hes Hts) as (ks & Hks & ->).
  assert (unseen_keys es ts fn = []) as Hnil.
  { apply elem_of_nil_inv. intros k [(t & -> & Ht)%list_elem_of_fmap Hk]%elem_of_unseen_keys.
    by apply Hk, Hcov. }
  rewrite Hnil in Hks. apply Permutation_nil_r in Hks as ->.
  simpl. by rewrite app_nil_r.
Qed.

Lemma Order_covered_deterministic_witness :
  Order (MapRange0 := rev_range Z) [2; 1; 3; 1] [(1, 10); (3, 20); (1, 30)] fst
  = [(1, 10); (1, 30); (3, 20)].
Proof.
  rewrite (Order_covered_deterministic (MapRange0 := rev_range Z)
             [2; 1; 3; 1] [(1, 10); (3, 20); (1, 30)] fst).
  - vm_compute. reflexivity.
  - intros t Ht. split; [reflexivity|].
    apply list_elem_of_In in Ht. apply list_elem_of_In. simpl in *.
    repeat destruct Ht as [<-|Ht]; simpl; tauto.
Defined.

(** ** Multi-way intersection *)

Section both_exist_facts.
Context {E K : Type} `{Countable K} `{!GoKey K} `{!MapRange K}.
Variable zero : E.
Implicit Types (fn : E → K) (e : list E) (es : list (list E)).

Local Abbreviation key_map_keyed e fn :=
  (foldl (λ (kv : gmap K E) t, <[fn t := t]> kv) ∅ e).

(** When no key of the slice differs from itself, its key map has no loose
    entry. *)
Lemma key_map_keyed_eq fn e :
  (∀ x, x ∈ e → self_eq (fn x) = true) →
  key_map e fn = GoMap (key_map_keyed e fn) [].
Proof.
  unfold key_map, go_empty. generalize (∅ : gmap K E).
  induction e as [|x e IH]; intros g Hself; [done|]. simpl.
  rewrite go_insert_self by (apply Hself; by left).
  apply IH. intros y Hy. apply Hself. by right.
Qed.

(** A key map binds exactly the keys of its slice, each to an element of the
    slice that carries it. *)
Lemma key_map_lookup fn e k :
  (is_Some (key_map_keyed e fn !! k) ↔ k ∈ fn <$> e)
  ∧ (∀ t, key_map_keyed e fn !! k = Some t → fn t = k ∧ t ∈ e).
Proof.
  induction e as [|x e [IH1 IH2]] using rev_ind.
  - simpl. split.
    + rewrite lookup_empty, elem_of_nil. split; [by intros [? ?]|done].
    + intros t. by rewrite lookup_empty.
  - rewrite foldl_snoc, fmap_app.
    destruct (decide (fn x = k)) as [<-|Hne].
    + rewrite lookup_insert_eq. split.
      * split; [|by eauto]. intros _. apply elem_of_app. right. by left.
      * intros t [= <-]. split; [done|]. apply elem_of_app. right. by left.
    + rewrite lookup_insert_ne by done. split.
      * rewrite IH1, elem_of_app. split; [tauto|].
        intros [?|?%list_elem_of_singleton]; done.
      * intros t Ht. destruct (IH2 t Ht) as [? ?]. split; [done|].
        apply elem_of_app. by left.
Qed.

(** The first loop fills the slots from [i] on with the key maps of the
    slices left, unless one of them is empty. *)
Lemma BothExistAny_maps_spec fn es i (ei : list (gomap K E)) idx :
  length ei = (i + length es)%nat →
  match BothExistAny_maps fn es i ei idx with
  | None => [] ∈ es
  | Some (ei', idx') =>
      ([] ∉ es)
      ∧ ei' = take i ei ++ ((λ e, key_map e fn) <$> es)
      ∧ (idx' = idx ∨ (i ≤ idx' < i + length es)%nat)
  end.
Proof.
  revert i ei idx. induction es as [|e es IH]; intros i ei idx Hlen; simpl in *.
  - split_and!; [apply not_elem_of_nil| |by left].
    rewrite app_nil_r, take_ge; [done|lia].
  - destruct (decide (length e = 0%nat)) as [He|He].
    { apply nil_length_inv in He as ->. by left. }
    set (kv := key_map e fn).
    set (idx1 := if decide (go_len kv < go_len (default go_empty (<[i:=kv]> ei !! idx)))%nat
                 then i else idx).
    specialize (IH (S i) (<[i:=kv]> ei) idx1).
    rewrite length_insert in IH. specialize (IH ltac:(simpl in Hlen; lia)).
    destruct (BothExistAny_maps fn es (S i) (<[i:=kv]> ei) idx1)
      as [[ei' idx']|]; [|by right].
    destruct IH as (Hne & -> & Hidx). split_and!.
    + intros [Heq|Hin]%elem_of_cons; [|done]. by subst e.
    + rewrite (take_S_r _ _ kv)
        by (apply list_lookup_insert_eq; simpl in Hlen; lia).
      rewrite take_insert_ge by lia. by rewrite <- app_assoc.
    + unfold idx1 in Hidx. simpl.
      destruct (decide _); lia.
Qed.

Lemma in_all_others_true (ei : list (gomap K E)) idx k :
  in_all_others ei idx k = true
  ↔ ∀ i m, ei !! i = Some m → i = idx ∨ is_Some (go_lookup m k).
Proof.
  unfold in_all_others. rewrite forallb_forall. split.
  - intros Hall i m Him.
    specialize (Hall (i, m)). rewrite <- list_elem_of_In in Hall.
    specialize (Hall (elem_of_lookup_imap_2 pair ei m i Him)).
    simpl in Hall. apply orb_true_iff in Hall as [Hi|Hm].
    + left. by apply bool_decide_eq_true in Hi.
    + right. by apply bool_decide_eq_true in Hm.
  - intros Hall [i m] Hin%list_elem_of_In.
    apply elem_of_lookup_imap_1 in Hin as (j & m' & [= -> ->] & Hj). simpl.
    apply orb_true_iff. destruct (Hall _ _ Hj) as [Hi|Hm].
    + left. by apply bool_decide_eq_true.
    + right. by apply bool_decide_eq_true.
Qed.

Lemma BothExistAny_loop (ei : list (gomap K E)) idx (m : gomap K E) (ks : list K) :
  foldl (λ (v : list E) (k : K),
           if in_all_others ei idx k then v ++ [default zero (go_lookup m k)] else v)
        [] ks
  = (λ k, default zero (go_lookup m k)) <$> filter (λ k, in_all_others ei idx k = true) ks.
Proof.
  induction ks as [|k ks IH] using rev_ind; [done|].
  rewrite foldl_snoc, IH, filter_app, fmap_app, filter_cons, filter_nil.
  destruct (in_all_others ei idx k) eqn:Hk.
  - by rewrite decide_True.
  - rewrite decide_False by done. by rewrite app_nil_r.
Qed.

(** The result on a non-empty list of non-empty slices whose keys all equal
    themselves: the bindings, in the key map of one of the slices, of the
    keys that every slice has. *)
Lemma BothExistAny_shape fn es :
  (∀ e x, e ∈ es → x ∈ e → self_eq (fn x) = true) →
  es ≠ [] → [] ∉ es →
  ∃ e0 (ks : list K),
    e0 ∈ es ∧ NoDup ks
    ∧ BothExistAny zero es fn
      = (λ k, default zero (key_map_keyed e0 fn !! k)) <$> ks
    ∧ ∀ k, k ∈ ks ↔ ∀ e, e ∈ es → k ∈ fn <$> e.
Proof.
  intros Hself Hes Hne. unfold BothExistAny.
  rewrite decide_False by (by destruct es).
  pose proof (BothExistAny_maps_spec fn es 0 (replicate (length es) go_empty) 0
                ltac:(by rewrite length_replicate)) as Hmaps.
  destruct (BothExistAny_maps fn es 0 (replicate (length es) go_empty) 0)
    as [[ei idx]|]; [|done].
  destruct Hmaps as (_ & -> & Hidx). simpl in *.
  assert (idx < length es)%nat as Hlt.
  { destruct es; [done|]. simpl in *. lia. }
  destruct (lookup_lt_is_Some_2 es idx Hlt) as [e0 He0].
  assert (e0 ∈ es) as Hin0 by (by eapply list_elem_of_lookup_2).
  rewrite list_lookup_fmap, He0. simpl. rewrite BothExistAny_loop.
  rewrite (key_map_keyed_eq fn e0) by (intros x Hx; by eapply Hself).
  set (m := key_map_keyed e0 fn).
  assert (∀ k, is_Some (m !! k) → self_eq k = true) as Hm.
  { intros k Hk. apply (proj1 (proj1 (key_map_lookup fn e0 k))) in Hk.
    apply list_elem_of_fmap in Hk as (x & -> & Hx). by eapply Hself. }
  set (P := λ k, in_all_others ((λ e, key_map e fn) <$> es) idx k = true).
  exists e0, (filter P (range (GoMap m [])).*1).
  split_and!; [done| | |].
  - apply NoDup_filter, NoDup_range_keys.
  - apply list_fmap_ext. intros i k Hik%list_elem_of_lookup_2.
    apply list_elem_of_filter in Hik as [_ Hk%elem_of_range_keys].
    by rewrite go_lookup_self by (by apply Hm).
  - intros k. rewrite list_elem_of_filter, elem_of_range_keys.
    unfold P. rewrite in_all_others_true.
    assert (∀ e, e ∈ es → self_eq k = true →
                 (is_Some (go_lookup (key_map e fn) k) ↔ k ∈ fn <$> e)) as Hlook.
    { intros e He Hk. rewrite (key_map_keyed_eq fn e) by (intros x Hx; by eapply Hself).
      rewrite go_lookup_self by done. apply (key_map_lookup fn e k). }
    split.
    + intros [Hall Hk] e [i Hi]%list_elem_of_lookup.
      destruct (Hall i (key_map e fn)) as [->|Hin].
      * by rewrite list_lookup_fmap, Hi.
      * rewrite He0 in Hi. injection Hi as <-.
        by apply (key_map_lookup fn e0 k).
      * apply Hlook; [by eapply list_elem_of_lookup_2|by apply Hm|done].
    + intros Hall.
      assert (is_Some (m !! k)) as Hk by (apply (key_map_lookup fn e0 k); by apply Hall).
      split; [|done].
      intros i m' Him. right.
      rewrite list_lookup_fmap in Him.
      destruct (es !! i) as [e|] eqn:Hi; [|done].
      injection Him as <-.
      assert (e ∈ es) as He by (by eapply list_elem_of_lookup_2).
      apply Hlook; [done|by apply Hm|by apply Hall].
Qed.

Lemma BothExistAny_empty_input fn es :
  [] ∈ es → BothExistAny zero es fn = [].
Proof.
  intros Hin. unfold BothExistAny.
  destruct (decide (length es = 0%nat)); [done|].
  pose proof (BothExistAny_maps_spec fn es 0 (replicate (length es) go_empty) 0
                ltac:(by rewrite length_replicate)) as Hmaps.
  destruct (BothExistAny_maps fn es 0 (replicate (length es) go_empty) 0)
    as [[ei idx]|]; [|done].
  by destruct Hmaps as (Hne & _).
Qed.

Lemma BothExistAny_keys fn es :
  (∀ e x, e ∈ es → x ∈ e → self_eq (fn x) = true) →
  es ≠ [] → [] ∉ es →
  NoDup (fn <$> BothExistAny zero es fn)
  ∧ ∀ k, k ∈ fn <$> BothExistAny zero es fn ↔ ∀ e, e ∈ es → k ∈ fn <$> e.
Proof.
  intros Hself Hes Hne.
  destruct (BothExistAny_shape fn es Hself Hes Hne) as (e0 & ks & Hin0 & Hnd & -> & Hks).
  assert (fn <$> ((λ k, default zero (key_map_keyed e0 fn !! k)) <$> ks) = ks) as ->.
  { rewrite <- list_fmap_compose. etrans; [|apply list_fmap_id].
    apply list_fmap_ext. intros i k Hik%list_elem_of_lookup_2. simpl.
    assert (is_Some (key_map_keyed e0 fn !! k)) as [t Ht]
      by (apply (key_map_lookup fn e0 k); by apply Hks).
    rewrite Ht. simpl. by apply (key_map_lookup fn e0 k). }
  by split.
Qed.
End both_exist_facts.

(** C9, as the code has it.  For a non-empty list of input slices none of
    whose keys differs from itself, a key is among the keys of the result of
    [BothExistAny] exactly when every input slice holds an element with that
    key, and no key occurs twice in the result, whatever the iteration order.
    An empty input slice makes the result empty, and so does an empty list of
    input slices. *)
Theorem BothExistAny_common_keys {E K : Type} `{Countable K} `{!GoKey K} `{!MapRange K}
    (zero : E) (es : list (list E)) (fn : E → K) :
  ((∀ e x, e ∈ es → x ∈ e → self_eq (fn x) = true) → es ≠ [] →
   (∀ k, k ∈ fn <$> BothExistAny zero es fn ↔ ∀ e, e ∈ es → k ∈ fn <$> e)
   ∧ NoDup (fn <$> BothExistAny zero es fn))
  ∧ ([] ∈ es → BothExistAny zero es fn = [])
  ∧ (es = [] → BothExistAny zero es fn = []).
Proof.
  split_and!.
  - intros Hself Hes. destruct (nil_elem_of_dec es) as [Hnil|Hnil].
    + rewrite BothExistAny_empty_input by done. split; [|constructor].
      intros k. split; [by intros ?%elem_of_nil|].
      intros Hall. apply (Hall [] Hnil).
    + destruct (BothExistAny_keys zero fn es Hself Hes Hnil) as [Hnd Hks].
      by split.
  - apply BothExistAny_empty_input.
  - by intros ->.
Qed.

Lemma BothExistAny_common_keys_witness :
  3 ∈ (λ x : Z, x) <$> BothExistAny (MapRange0 := fwd_range Z) 0
                         [[1; 2; 3]; [2; 3; 4]; [3; 4; 5]] (λ x : Z, x)
  ∧ BothExistAny (MapRange0 := fwd_range Z) 0 [[1; 2]; []] (λ x : Z, x) = [].
Proof.
  split.
  - destruct (proj1 (BothExistAny_common_keys (MapRange0 := fwd_range Z) 0
                       [[1; 2; 3]; [2; 3; 4]; [3; 4; 5]] (λ x : Z, x)))
      as [Hkeys _]; [by intros e x _ _|discriminate|].
    apply Hkeys. intros e He.
    repeat (apply elem_of_cons in He as [->|He];
            [apply list_elem_of_In; simpl; tauto|]).
    by apply elem_of_nil in He.
  - apply (proj1 (proj2 (BothExistAny_common_keys (MapRange0 := fwd_range Z) 0
                           [[1; 2]; []] (λ x : Z, x)))).
    right. left.
Defined.

(** With no input slice at all, every key is present in every input slice,
    yet the result is empty. *)
Lemma BothExistAny_no_input_slices :
  ¬ (∀ k : Z,
       k ∈ (λ x : Z, x) <$> BothExistAny (MapRange0 := fwd_range Z) 0 [] (λ x : Z, x)
       ↔ ∀ e : list Z, e ∈ [] → k ∈ (λ x : Z, x) <$> e).
Proof.
  intros Hall. destruct (Hall 0) as [_ Hin].
  assert (0 ∈ @nil Z) as Habs.
  { apply Hin. intros e He. by apply elem_of_nil in He. }
  by apply elem_of_nil in Habs.
Qed.

(** On the one slice [[NaN]] the read of the map under the key met misses,
    and the zero value is returned: a key that the input does not have. *)
Example BothExistAny_NaN_key :
  BothExistAny (MapRange0 := fwd_range float_key) (Num 0) [[NaN]] (λ x, x) = [Num 0].
Proof. vm_compute. reflexivity. Qed.

(** X22.  When no key of the input differs from itself, [BothExistAny]
    returns elements of its input only: every element of the result is an
    element of one of the input slices, so the zero value never stands in
    for a missing entry. *)
Theorem BothExistAny_elements_from_input {E K : Type} `{Countable K} `{!GoKey K}
    `{!MapRange K} (zero : E) (es : list (list E)) (fn : E → K) (x : E) :
  (∀ e y, e ∈ es → y ∈ e → self_eq (fn y) = true) →
  x ∈ BothExistAny zero es fn → ∃ e, e ∈ es ∧ x ∈ e.
Proof.
  intros Hself Hx.
  destruct (decide (es = [])) as [->|Hes]; [by apply elem_of_nil in Hx|].
  destruct (nil_elem_of_dec es) as [Hnil|Hnil].
  { rewrite BothExistAny_empty_input in Hx by done. by apply elem_of_nil in Hx. }
  destruct (BothExistAny_shape zero fn es Hself Hes Hnil)
    as (e0 & ks & Hin0 & _ & Heq & Hks).
  rewrite Heq in Hx. apply list_elem_of_fmap in Hx as (k & -> & Hk).
  assert (is_Some (foldl (λ (kv : gmap K E) t, <[fn t := t]> kv) ∅ e0 !! k)) as [t Ht]
    by (apply (key_map_lookup fn e0 k); by apply Hks).
  rewrite Ht. simpl. exists e0. split; [done|].
  by apply (key_map_lookup fn e0 k).
Qed.

Lemma BothExistAny_elements_from_input_witness :
  ∃ e, e ∈ [[(1, 10); (2, 20)]; [(2, 21); (3, 30)]] ∧ (2, 20) ∈ e.
Proof.
  apply (BothExistAny_elements_from_input (MapRange0 := fwd_range Z) (0, 0)
           [[(1, 10); (2, 20)]; [(2, 21); (3, 30)]] fst (2, 20)).
  - by intros e y _ _.
  - vm_compute. left.
Defined.

(** X23.  For a non-empty list of slices none of whose elements differs from
    itself, [BothExist] returns exactly the elements that occur in every
    slice, each once, whatever the iteration order. *)
Theorem BothExist_common_elements {E : Type} `{Countable E} `{!GoKey E} `{!MapRange E}
    (zero : E) (es : list (list E)) :
  (∀ e x, e ∈ es → x ∈ e → self_eq x = true) → es ≠ [] →
  NoDup (BothExist zero es)
  ∧ ∀ x, x ∈ BothExist zero es ↔ ∀ e, e ∈ es → x ∈ e.
Proof.
  intros Hself Hes. unfold BothExist.
  destruct (nil_elem_of_dec es) as [Hnil|Hnil].
  - rewrite BothExistAny_empty_input by done. split; [constructor|].
    intros x. split; [by intros ?%elem_of_nil|]. intros Hall. apply (Hall [] Hnil).
  - destruct (BothExistAny_keys zero (λ e : E, e) es Hself Hes Hnil) as [Hnd Hiff].
    rewrite list_fmap_id in Hnd, Hiff. split; [done|].
    intros x. rewrite Hiff. split; intros Hall e He; specialize (Hall e He);
      by rewrite list_fmap_id in *.
Qed.

Lemma BothExist_common_elements_witness :
  NoDup (BothExist (MapRange0 := fwd_range Z) 0 [[1; 2; 3; 3]; [2; 3; 4]; [3; 4; 5]])
  ∧ BothExist (MapRange0 := fwd_range Z) 0 [[1; 2; 3; 3]; [2; 3; 4]; [3; 4; 5]] = [3].
Proof.
  split.
  - apply (BothExist_common_elements (MapRange0 := fwd_range Z) 0
             [[1; 2; 3; 3]; [2; 3; 4]; [3; 4; 5]]).
    + by intros e x _ _.
    + discriminate.
  - vm_compute. reflexivity.
Defined.

(** X21.  When no element of [a] and [b] differs from itself, [Single a b]
    never lists an element twice, [Single a a] is empty, and [Single] does
    not depend on the order of its arguments but for the order of its
    result. *)
Theorem Single_symmetric {E : Type} `{Countable E} `{!GoKey E} `{!MapRange E}
    (a b : list E) :
  (∀ x, x ∈ a ++ b → self_eq x = true) →
  NoDup (Single a b)
  ∧ Single a a = []
  ∧ Single a b ≡ₚ Single b a.
Proof.
  intros Hself.
  assert (∀ x, x ∈ b ++ a → self_eq x = true) as Hba.
  { intros x Hx. apply Hself. rewrite elem_of_app in *. tauto. }
  assert (∀ x, x ∈ a ++ a → self_eq x = true) as Haa.
  { intros x Hx. apply Hself. rewrite elem_of_app in *. tauto. }
  split_and!.
  - by apply NoDup_Single.
  - apply elem_of_nil_inv. intros k Hk. apply elem_of_Single in Hk; [tauto|done].
  - apply NoDup_Permutation; [by apply NoDup_Single..|].
    intros k. rewrite !elem_of_Single by done. tauto.
Qed.

Lemma Single_symmetric_witness :
  NoDup (Single (MapRange0 := fwd_range Z) [1; 2; 2; 3] [3; 5])
  ∧ Single (MapRange0 := fwd_range Z) [1; 2; 2; 3] [1; 2; 2; 3] = [].
Proof.
  split.
  - apply (Single_symmetric (MapRange0 := fwd_range Z) [1; 2; 2; 3] [3; 5]).
    by intros x _.
  - apply (Single_symmetric (MapRange0 := fwd_range Z) [1; 2; 2; 3] [3; 5]).
    by intros x _.
Defined.

(** ** Keys and values of a map *)

Section keys_values_facts.
Context {K V : Type} `{Countable K} `{!GoKey K} `{!MapRange K}.

Lemma append_loop {A B : Type} (f : A → B) (l : list A) :
  foldl (λ (acc : list B) (a : A), acc ++ [f a]) [] l = f <$> l.
Proof.
  induction l as [|a l IH] using rev_ind; [done|].
  by rewrite foldl_snoc, IH, fmap_app.
Qed.

Lemma Keys_range (kv : gomap K V) : Keys kv = (range kv).*1.
Proof. unfold Keys. by rewrite (append_loop (λ k : K, k)), list_fmap_id. Qed.

Lemma Values_range (zero : V) (kv : gomap K V) :
  Values zero kv = (λ k, default zero (go_lookup kv k)) <$> (range kv).*1.
Proof. unfold Values. by rewrite (append_loop (λ k : K, default zero (go_lookup kv k))). Qed.

Lemma length_go_entries (kv : gomap K V) : length (go_entries kv) = go_len kv.
Proof. unfold go_entries, go_len. by rewrite length_app, length_map_to_list. Qed.
End keys_values_facts.

(** X16.  Whatever the iteration order, [Keys] lists the key of every entry
    of the map and [Values] has one value per entry: both have the length of
    the map.  When no key of the map differs from itself, [Keys] lists every
    key once, [Keys] lists exactly the keys that a lookup finds, and [Values]
    lists the values bound in the map. *)
Theorem Keys_Values_of_map {K V : Type} `{Countable K} `{!GoKey K} `{!MapRange K}
    (zero : V) (kv : gomap K V) :
  Keys kv ≡ₚ (go_entries kv).*1
  ∧ length (Keys kv) = go_len kv
  ∧ length (Values zero kv) = go_len kv
  ∧ (self_keyed kv →
     NoDup (Keys kv)
     ∧ (∀ k, k ∈ Keys kv ↔ is_Some (go_lookup kv k))
     ∧ Values zero kv ≡ₚ (go_entries kv).*2).
Proof.
  rewrite Keys_range, Values_range. split_and!.
  - by rewrite (range_perm kv).
  - by rewrite (range_perm kv), length_fmap, length_go_entries.
  - by rewrite !length_fmap, (range_perm kv), length_go_entries.
  - intros [Hkeys Hloose]. destruct kv as [g l]. simpl in *. subst l.
    split_and!.
    + apply NoDup_range_keys.
    + intros k. rewrite elem_of_range_keys. by rewrite go_lookup_keyed.
    + rewrite <- (range_perm (GoMap g [])).
      assert ((λ k, default zero (go_lookup (GoMap g []) k)) <$> (range (GoMap g [])).*1
              = (range (GoMap g [])).*2) as ->; [|done].
      rewrite <- list_fmap_compose.
      apply list_fmap_ext. intros i [k v] Hi%list_elem_of_lookup_2.
      simpl. apply elem_of_range in Hi.
      rewrite go_lookup_keyed by done. by rewrite Hi.
Qed.

Lemma Keys_Values_of_map_witness :
  Values (MapRange0 := fwd_range Z) 0 (go_insert 1 10 (go_insert 2 20 go_empty))
  ≡ₚ [20; 10].
Proof.
  destruct (Keys_Values_of_map (MapRange0 := fwd_range Z) 0
              (go_insert 1 10 (go_insert 2 20 go_empty))) as (_ & _ & _ & Hself).
  destruct Hself as (_ & _ & Hvalues).
  - split; [by intros k _|reflexivity].
  - rewrite Hvalues. vm_compute. reflexivity.
Defined.

(** Under a key that differs from itself, [Values] reads the zero value in
    place of the value bound. *)
Example Values_NaN_key :
  Values (MapRange0 := fwd_range float_key) 0 (go_insert NaN 7 go_empty) = [0]
  ∧ Keys (MapRange0 := fwd_range float_key) (go_insert NaN 7 (go_empty (V := Z))) = [NaN].
Proof. split; vm_compute; reflexivity. Qed.

(** ** Difference through a conversion *)

(** X10.  Subtracting the converted slice [Slice b fn] is subtracting [b]
    through the key function [fn]: [SliceSubAny a b fn] is
    [SliceSubFuncs a b] with the identity on [a] and [fn] on [b]. *)
Theorem SliceSubAny_through_key {E T : Type} `{Countable E} (zero : E)
    (a : list E) (b : list T) (fn : T → E) :
  SliceSubAny zero a b fn = SliceSubFuncs a b (λ i, i) fn.
Proof.
  unfold SliceSubAny, SliceSub, SliceSubFunc, SliceSubFuncs.
  rewrite Slice_fmap, length_fmap, !key_set_list_to_set, list_fmap_id. done.
Qed.
